(** * datastore/basic.py: a shallow embedding of the composite datastores

    The development follows [src/datastore/basic.py].  A Python object that
    is mutated in place is a cell of an explicit store: child datastores
    live in a heap indexed by references, [Query] objects live in a second
    heap, and every method is a function in a state-and-exception monad over
    that world.  Python's [None] is [None] of an [option]. *)

From Stdlib Require Import ZArith String Ascii List Lia.
From stdpp Require Import base option list gmap strings functions sorting.

Local Open Scope string_scope.
Local Open Scope list_scope.
Local Open Scope Z_scope.

(** ** Exceptions and results *)

Inductive exn : Type :=
| NotImplementedError
| ZeroDivisionError
| IndexError
| ValueError.

Inductive result (A : Type) : Type :=
| Ok (a : A)
| Raise (e : exn).

Arguments Ok {A} a.
Arguments Raise {A} e.

(** ** Python sequences: [xrange], slices, indexing *)

(** [xrange(start, stop, step)]: a zero step is a [ValueError]; otherwise
    the arithmetic progression from [start] that stays before [stop]. *)
Definition xrange (start stop step : Z) : result (list Z) :=
  if decide (step = 0) then Raise ValueError
  else
    let count :=
      if decide (0 < step)
      then (stop - start + step - 1) / step
      else (start - stop - step - 1) / (- step) in
    Ok (map (λ i : nat, start + Z.of_nat i * step) (seq 0 (Z.to_nat count))).

(** A slice bound: negative bounds count from the end, and every bound is
    clamped to the sequence. *)
Definition slice_bound (len i : Z) : Z :=
  if decide (i < 0) then Z.max (i + len) 0 else Z.min i len.

(** [s[i:j]] on a string. *)
Definition str_slice (s : string) (i j : Z) : string :=
  let len := Z.of_nat (String.length s) in
  let a := slice_bound len i in
  let b := slice_bound len j in
  substring (Z.to_nat a) (Z.to_nat (b - a)) s.

(** [l[:j]] on a list. *)
Definition list_slice_to {A : Type} (l : list A) (j : Z) : list A :=
  take (Z.to_nat (slice_bound (Z.of_nat (length l)) j)) l.

(** [l[index]]: negative indices count from the end; out of range is an
    [IndexError]. *)
Definition list_getitem {A : Type} (l : list A) (index : Z) : result A :=
  let n := Z.of_nat (length l) in
  let i := if decide (index < 0) then index + n else index in
  if decide (0 ≤ i < n)
  then match l !! Z.to_nat i with
       | Some x => Ok x
       | None => Raise IndexError
       end
  else Raise IndexError.

(** ** NestedPathDatastore.nestedPath (a static method) *)

(** [components = [path[n:n+length] for n in xrange(0, len(path), length)]],
    [components = components[:depth]], ['/'.join(components)]. *)
Definition nestedPath (path : string) (depth length : Z) : result string :=
  match xrange 0 (Z.of_nat (String.length path)) length with
  | Raise e => Raise e
  | Ok ns =>
      let components := map (λ n, str_slice path n (n + length)) ns in
      let components := list_slice_to components depth in
      Ok (String.concat "/" components)
  end.

(** The property of [nestedPath] in the words of its description: the
    input cut into consecutive chunks of [n] characters.  [fuel] bounds the
    number of chunks; the length of the input is always enough. *)
Fixpoint string_drop (n : nat) (s : string) : string :=
  match n, s with
  | O, _ => s
  | S n', String _ s' => string_drop n' s'
  | S _, EmptyString => EmptyString
  end.

Fixpoint chunks_fuel (fuel n : nat) (s : string) : list string :=
  match fuel with
  | O => []
  | S fuel' =>
      match s with
      | EmptyString => []
      | _ => substring 0 n s :: chunks_fuel fuel' n (string_drop n s)
      end
  end.

Definition chunks (n : nat) (s : string) : list string :=
  chunks_fuel (String.length s) n s.

(** ** A flat key space

    The simplest [Key]s: a key is a string, [str] gives it back, and every
    key lives in the root collection.  The concrete runs below use it. *)
Definition flat_path (k : string) : string := "/".

Definition flat_str (k : string) : string := k.

Definition flat_key (s : string) : string := s.

Definition flat_child (parent k : string) : string :=
  (parent +:+ "/" +:+ k)%string.

Section Datastore.

(** [Key] (key.py) and the order and filter directives of a [Query]
    (query.py) are consumed through their contract only.  A [Key] is
    hashable and comparable; [key_path k] is [k.path] and [key_str k] is
    [str(k)]. *)
Context {Key Value Order Filter : Type} `{Countable Key}.
Variable key_path : Key → Key.
Variable key_str : Key → string.

(** ** Query and Cursor (query.py), as basic.py uses them *)

(** The fields of a [Query] object: the target key, [offset] (default 0),
    [limit] (an integer or [None]), [order] (a list of directives or
    [None]) and the filters. *)
Record Query : Type := mkQuery {
  qkey : Key;
  offset : Z;
  limit : option Z;
  order : option (list Order);
  filters : list Filter
}.

(** A child's [Cursor], by what basic.py reads of it: the items that
    iterating it yields, and the counters [skipped] and [returned] once it
    is exhausted. *)
Record Cursor : Type := mkCursor {
  items : list Value;
  skipped : nat;
  returned : nat
}.

(** Modelled from the spec: [Query.__call__] (query.py) for a query
    without filters or order, on a list: the items past [offset], at most
    [limit] of them; [skipped] counts the items consumed for the offset and
    [returned] the items yielded.  It serves as an instance of
    [Query_call] below. *)
Definition naive_Query_call (q : Query) (l : list Value) : Cursor :=
  let rest := drop (Z.to_nat (offset q)) l in
  let out :=
    match limit q with
    | Some n => take (Z.to_nat n) rest
    | None => rest
    end in
  mkCursor out (Nat.min (Z.to_nat (offset q)) (length l)) (length out).

(** [Query.__call__]: a query applied naively to an iterable. *)
Variable Query_call : Query → list Value → Cursor.

(** [Order.sorted]: the values sorted by a list of directives. *)
Variable Order_sorted : list Order → list Value → list Value.

(** ** DictDatastore *)

(** [self._items]: a dict of collections, each a dict from keys to
    values.  A stored value is never [None]: [put] turns [None] into a
    [delete], so the inner maps hold [Value]s. *)
Record DictDatastore : Type := mkDict {
  _items : gmap string (gmap Key Value)
}.

(** [_collection]: the namespace collection for [key]; it is created
    (empty) when missing, and that insertion stays in [self._items].  The
    result pairs the collection with the updated object. *)
Definition DictDatastore__collection (key : Key) (self : DictDatastore)
  : gmap Key Value * DictDatastore :=
  let collection := key_str (key_path key) in
  match _items self !! collection with
  | Some c => (c, self)
  | None => (∅, mkDict (<[collection := ∅]> (_items self)))
  end.

(** [get]: [self._collection(key)[key]], a [KeyError] gives [None]. *)
Definition DictDatastore_get (key : Key) (self : DictDatastore)
  : option Value * DictDatastore :=
  let '(c, self) := DictDatastore__collection key self in
  (c !! key, self).

(** [delete]: [del self._collection(key)[key]]; when the collection is
    left empty it is removed from [self._items]; a [KeyError] is passed
    over (the collection that [_collection] created stays). *)
Definition DictDatastore_delete (key : Key) (self : DictDatastore)
  : DictDatastore :=
  let '(c, self) := DictDatastore__collection key self in
  match c !! key with
  | None => self
  | Some _ =>
      let self :=
        mkDict (<[key_str (key_path key) := base.delete key c]> (_items self)) in
      let '(c', self) := DictDatastore__collection key self in
      if decide (size c' = 0%nat)
      then mkDict (base.delete (key_str (key_path key)) (_items self))
      else self
  end.

(** [put]: [None] means [delete]; otherwise
    [self._collection(key)[key] = value]. *)
Definition DictDatastore_put (key : Key) (value : option Value)
    (self : DictDatastore) : DictDatastore :=
  match value with
  | None => DictDatastore_delete key self
  | Some v =>
      let '(c, self) := DictDatastore__collection key self in
      mkDict (<[key_str (key_path key) := <[key := v]> c]> (_items self))
  end.

(** [contains]: [key in self._collection(key)]. *)
Definition DictDatastore_contains (key : Key) (self : DictDatastore)
  : bool * DictDatastore :=
  let '(c, self) := DictDatastore__collection key self in
  (bool_decide (is_Some (c !! key)), self).

(** [query]: the query applied to the values of the collection named
    [str(query.key)], or to the empty list.  [values()] is taken in the
    order of [map_to_list]. *)
Definition DictDatastore_query (query : Query) (self : DictDatastore)
  : Cursor :=
  match _items self !! key_str (qkey query) with
  | Some c => Query_call query (map_to_list c).*2
  | None => Query_call query []
  end.

(** The content of a [DictDatastore] as a partial map on keys. *)
Definition Dict_view (self : DictDatastore) (key : Key) : option Value :=
  _items self !! key_str (key_path key) ≫= λ c, c !! key.

(** ** The Datastore interface *)

(** What a composite calls on a child: each method takes the child's
    state and gives a result or a raised exception, and the state after
    the call. *)
Class Datastore (S : Type) : Type := {
  ds_get : Key → S → result (option Value) * S;
  ds_put : Key → option Value → S → result unit * S;
  ds_delete : Key → S → result unit * S;
  ds_query : Query → S → result Cursor * S;
  ds_contains : Key → S → result bool * S
}.

#[local] Instance DictDatastore_Datastore : Datastore DictDatastore := {
  ds_get key self :=
    let '(v, self) := DictDatastore_get key self in (Ok v, self);
  ds_put key value self := (Ok tt, DictDatastore_put key value self);
  ds_delete key self := (Ok tt, DictDatastore_delete key self);
  ds_query query self := (Ok (DictDatastore_query query self), self);
  ds_contains key self :=
    let '(b, self) := DictDatastore_contains key self in (Ok b, self)
}.

(** A child that behaves as a key-value store: [view] is its content;
    [get] reports the content and keeps it, [put] of a value other than
    [None] sets the content at its key and nowhere else, and neither
    raises. *)
Class LawfulDatastore {S : Type} {DS : Datastore S}
    (view : S → Key → option Value) : Prop := {
  lawful_get : ∀ k s, ∃ s',
    ds_get k s = (Ok (view s k), s') ∧ ∀ k', view s' k' = view s k';
  lawful_put : ∀ k v s, ∃ s',
    ds_put k (Some v) s = (Ok tt, s')
    ∧ view s' k = Some v
    ∧ ∀ k', k' ≠ k → view s' k' = view s k'
}.

(** ** The world of a composite *)

Context {S : Type} {DS : Datastore S}.

Definition loc : Type := nat.
Definition qref : Type := nat.

(** A call of a child's method, as the composite makes it. *)
Inductive Event : Type :=
| EGet (store : loc) (key : Key)
| EPut (store : loc) (key : Key) (value : option Value)
| EDelete (store : loc) (key : Key)
| EContains (store : loc) (key : Key)
| EQuery (store : loc) (query : Query).

(** [heap]: the child datastore objects, by reference.  [queries]: the
    [Query] objects, by reference; [qnext] is the next unused reference.
    [calls]: the calls made on children so far, oldest first. *)
Record World : Type := mkWorld {
  heap : loc → S;
  queries : qref → Query;
  qnext : qref;
  calls : list Event
}.

Definition M (A : Type) : Type := World → result A * World.

Definition ret {A : Type} (a : A) : M A := λ w, (Ok a, w).

Definition raise {A : Type} (e : exn) : M A := λ w, (Raise e, w).

Definition bind {A B : Type} (m : M A) (f : A → M B) : M B :=
  λ w, match m w with
       | (Ok a, w') => f a w'
       | (Raise e, w') => (Raise e, w')
       end.

Notation "'let*' x ':=' m 'in' k" := (bind m (λ x, k))
  (at level 10, x name, m at level 100, k at level 200, only parsing).

Definition lift {A : Type} (r : result A) : M A := λ w, (r, w).

(** [store.m(...)] on the child at [store]: the child's state is replaced
    by the state after the call, raised or not. *)
Definition call {A : Type} (store : loc) (e : Event)
    (m : S → result A * S) : M A :=
  λ w, let '(r, s) := m (heap w store) in
       (r, mkWorld (<[store := s]> (heap w)) (queries w) (qnext w)
             (calls w ++ [e])).

Definition Query_read (q : qref) : M Query := λ w, (Ok (queries w q), w).

Definition Query_write (q : qref) (v : Query) : M unit :=
  λ w, (Ok tt, mkWorld (heap w) (<[q := v]> (queries w)) (qnext w) (calls w)).

(** Modelled from the spec: [Query.copy] (query.py), which produces an
    independent mutable clone: a new object with the fields of the
    original. *)
Definition Query_copy (q : qref) : M qref :=
  λ w, (Ok (qnext w),
        mkWorld (heap w) (<[qnext w := queries w q]> (queries w))
          (Datatypes.S (qnext w)) (calls w)).

Definition call_get (store : loc) (key : Key) : M (option Value) :=
  call store (EGet store key) (ds_get key).

Definition call_put (store : loc) (key : Key) (value : option Value)
  : M unit :=
  call store (EPut store key value) (ds_put key value).

Definition call_delete (store : loc) (key : Key) : M unit :=
  call store (EDelete store key) (ds_delete key).

Definition call_contains (store : loc) (key : Key) : M bool :=
  call store (EContains store key) (ds_contains key).

(** [store.query(query)]: the child reads the [Query] object it is
    given; no [query] method of basic.py assigns to its argument. *)
Definition call_query (store : loc) (query : qref) : M Cursor :=
  let* q := Query_read query in
  call store (EQuery store q) (ds_query q).

(** A world in which every store reference holds [s] and every query
    reference holds [q]; the one allocated [Query] object is at 0 and no
    call has been made. *)
Definition init_world (s : S) (q : Query) : World :=
  mkWorld (λ _, s) (λ _, q) 1%nat [].

(** ** ShimDatastore and KeyTransformDatastore *)

(** [child_datastore] and the injected [keytransform] (or [None]); a
    transform may raise, as [nestKey] does on an empty name. *)
Record KeyTransformDatastore : Type := mkKeyTransform {
  child_datastore : loc;
  keytransform : option (Key → result Key)
}.

(** [self.keytransform(key) if self.keytransform else key]. *)
Definition KeyTransformDatastore__transform (self : KeyTransformDatastore)
    (key : Key) : M Key :=
  match keytransform self with
  | Some f => lift (f key)
  | None => ret key
  end.

Definition KeyTransformDatastore_get (self : KeyTransformDatastore)
    (key : Key) : M (option Value) :=
  let* key := KeyTransformDatastore__transform self key in
  call_get (child_datastore self) key.

Definition KeyTransformDatastore_put (self : KeyTransformDatastore)
    (key : Key) (value : option Value) : M unit :=
  let* key := KeyTransformDatastore__transform self key in
  call_put (child_datastore self) key value.

Definition KeyTransformDatastore_delete (self : KeyTransformDatastore)
    (key : Key) : M unit :=
  let* key := KeyTransformDatastore__transform self key in
  call_delete (child_datastore self) key.

Definition KeyTransformDatastore_contains (self : KeyTransformDatastore)
    (key : Key) : M bool :=
  let* key := KeyTransformDatastore__transform self key in
  call_contains (child_datastore self) key.

(** [query = query.copy()], [query.key = self._transform(query.key)],
    [return self.child_datastore.query(query)]. *)
Definition KeyTransformDatastore_query (self : KeyTransformDatastore)
    (query : qref) : M Cursor :=
  let* query := Query_copy query in
  let* q := Query_read query in
  let* key := KeyTransformDatastore__transform self (qkey q) in
  let* _ := Query_write query
              (mkQuery key (offset q) (limit q) (order q) (filters q)) in
  call_query (child_datastore self) query.

(** ** NestedPathDatastore *)

Record NestedPathDatastore : Type := mkNestedPath {
  nested_base : KeyTransformDatastore;
  nest_depth : Z;
  nest_length : Z
}.

(** [query] is overridden: [raise NotImplementedError]. *)
Definition NestedPathDatastore_query (self : NestedPathDatastore)
    (query : qref) : M Cursor :=
  raise NotImplementedError.

(** ** TieredDatastore *)

(** [self._stores] of a [DatastoreCollection]: references to the
    children, in order. *)
Record TieredDatastore : Type := mkTiered {
  tiered_stores : list loc
}.

(** The first loop of [get]: [value = store.get(key)] for each store in
    turn, leaving at the first value that is not [None].  The result is
    [value] with the [store] the loop stopped on. *)
Fixpoint TieredDatastore_get_probe (key : Key) (stores : list loc)
  : M (option (loc * Value)) :=
  match stores with
  | [] => ret None
  | store :: stores' =>
      let* value := call_get store key in
      match value with
      | Some v => ret (Some (store, v))
      | None => TieredDatastore_get_probe key stores'
      end
  end.

(** The second loop of [get]: [store2.put(key, value)] for each store in
    turn, leaving at the first [store2] with [store == store2].  No class
    of basic.py defines [__eq__]: [==] on stores is identity. *)
Fixpoint TieredDatastore_get_promote (key : Key) (value : Value)
    (store : loc) (stores : list loc) : M unit :=
  match stores with
  | [] => ret tt
  | store2 :: stores' =>
      if decide (store = store2) then ret tt
      else
        let* _ := call_put store2 key (Some value) in
        TieredDatastore_get_promote key value store stores'
  end.

Definition TieredDatastore_get (self : TieredDatastore) (key : Key)
  : M (option Value) :=
  let* found := TieredDatastore_get_probe key (tiered_stores self) in
  match found with
  | None => ret None
  | Some (store, v) =>
      let* _ := TieredDatastore_get_promote key v store (tiered_stores self) in
      ret (Some v)
  end.

Fixpoint TieredDatastore_put_loop (key : Key) (value : option Value)
    (stores : list loc) : M unit :=
  match stores with
  | [] => ret tt
  | store :: stores' =>
      let* _ := call_put store key value in
      TieredDatastore_put_loop key value stores'
  end.

Definition TieredDatastore_put (self : TieredDatastore) (key : Key)
    (value : option Value) : M unit :=
  TieredDatastore_put_loop key value (tiered_stores self).

Fixpoint TieredDatastore_delete_loop (key : Key) (stores : list loc)
  : M unit :=
  match stores with
  | [] => ret tt
  | store :: stores' =>
      let* _ := call_delete store key in
      TieredDatastore_delete_loop key stores'
  end.

Definition TieredDatastore_delete (self : TieredDatastore) (key : Key)
  : M unit :=
  TieredDatastore_delete_loop key (tiered_stores self).

Fixpoint TieredDatastore_contains_loop (key : Key) (stores : list loc)
  : M bool :=
  match stores with
  | [] => ret false
  | store :: stores' =>
      let* b := call_contains store key in
      if b then ret true else TieredDatastore_contains_loop key stores'
  end.

Definition TieredDatastore_contains (self : TieredDatastore) (key : Key)
  : M bool :=
  TieredDatastore_contains_loop key (tiered_stores self).

(** [self._stores[-1].query(query)]. *)
Definition TieredDatastore_query (self : TieredDatastore) (query : qref)
  : M Cursor :=
  let* store := lift (list_getitem (tiered_stores self) (-1)) in
  call_query store query.

(** ** ShardedDatastore *)

Record ShardedDatastore : Type := mkSharded {
  sharded_stores : list loc;
  _shardingfn : Key → Z
}.

(** [__init__(stores, shardingfn)].  The two [TypeError]s (a
    [shardingfn] that is not callable, a store that is not a [Datastore])
    are excluded by the types of the arguments; nothing else is checked. *)
Definition ShardedDatastore_init (stores : list loc) (shardingfn : Key → Z)
  : result ShardedDatastore :=
  Ok (mkSharded stores shardingfn).

(** [self._shardingfn(key) % len(self._stores)]; Python's [%] takes the
    sign of the divisor, as [Z.modulo] does, and raises on a zero
    divisor. *)
Definition ShardedDatastore_shard (self : ShardedDatastore) (key : Key)
  : result Z :=
  let n := Z.of_nat (length (sharded_stores self)) in
  if decide (n = 0) then Raise ZeroDivisionError
  else Ok (_shardingfn self key `mod` n).

(** [DatastoreCollection.datastore]: [self._stores[index]]. *)
Definition ShardedDatastore_datastore (self : ShardedDatastore) (index : Z)
  : result loc :=
  list_getitem (sharded_stores self) index.

(** [self.datastore(self.shard(key))]. *)
Definition ShardedDatastore_shardDatastore (self : ShardedDatastore)
    (key : Key) : result loc :=
  match ShardedDatastore_shard self key with
  | Ok index => ShardedDatastore_datastore self index
  | Raise e => Raise e
  end.

Definition ShardedDatastore_get (self : ShardedDatastore) (key : Key)
  : M (option Value) :=
  let* store := lift (ShardedDatastore_shardDatastore self key) in
  call_get store key.

Definition ShardedDatastore_put (self : ShardedDatastore) (key : Key)
    (value : option Value) : M unit :=
  let* store := lift (ShardedDatastore_shardDatastore self key) in
  call_put store key value.

Definition ShardedDatastore_delete (self : ShardedDatastore) (key : Key)
  : M unit :=
  let* store := lift (ShardedDatastore_shardDatastore self key) in
  call_delete store key.

Definition ShardedDatastore_contains (self : ShardedDatastore) (key : Key)
  : M bool :=
  let* store := lift (ShardedDatastore_shardDatastore self key) in
  call_contains store key.

(** The lines after the inner [for] of [shard_query_generator]:
    [shard_query.offset = max(shard_query.offset - cursor.skipped, 0)],
    then under [if shard_query.limit:] (a limit that is neither [None]
    nor 0) [shard_query.limit = max(shard_query.limit - cursor.returned, 0)]
    and [break] when [shard_query.limit <= 0].  The result tells whether
    the loop is left. *)
Definition shard_query_update (shard_query : qref) (cursor : Cursor)
  : M bool :=
  let* q := Query_read shard_query in
  let q := mkQuery (qkey q) (Z.max (offset q - Z.of_nat (skipped cursor)) 0)
             (limit q) (order q) (filters q) in
  let* _ := Query_write shard_query q in
  match limit q with
  | Some l =>
      if decide (l ≠ 0) then
        let l' := Z.max (l - Z.of_nat (returned cursor)) 0 in
        let* _ := Query_write shard_query
                    (mkQuery (qkey q) (offset q) (Some l') (order q)
                       (filters q)) in
        ret (bool_decide (l' ≤ 0))
      else ret false
  | None => ret false
  end.

(** The generator object of [shard_query_generator], between two
    [next]s: not started; suspended at [yield item] in the cursor of one
    shard, with the items this cursor has still to give and the shards
    still to visit; or finished. *)
Inductive Generator : Type :=
| GenStart (self : ShardedDatastore) (query : qref)
| GenYield (shard_query : qref) (cursor : Cursor) (pending : list Value)
    (stores : list loc)
| GenDone.

(** [for shard in ...] from the head of the loop up to the next [yield]
    or the end: [cursor = shard.query(shard_query)], then the first item
    of the cursor, or the update and the next shard when it has none. *)
Fixpoint shard_loop (shard_query : qref) (stores : list loc)
  : M (option Value * Generator) :=
  match stores with
  | [] => ret (None, GenDone)
  | shard :: stores' =>
      let* cursor := call_query shard shard_query in
      match items cursor with
      | item :: pending =>
          ret (Some item, GenYield shard_query cursor pending stores')
      | [] =>
          let* done := shard_query_update shard_query cursor in
          if done then ret (None, GenDone)
          else shard_loop shard_query stores'
      end
  end.

(** [next(generator)]: the item yielded, or [None] at [StopIteration]. *)
Definition Generator_next (g : Generator) : M (option Value * Generator) :=
  match g with
  | GenStart self query =>
      let* shard_query := Query_copy query in
      shard_loop shard_query (sharded_stores self)
  | GenYield shard_query cursor pending stores =>
      match pending with
      | item :: pending' =>
          ret (Some item, GenYield shard_query cursor pending' stores)
      | [] =>
          let* done := shard_query_update shard_query cursor in
          if done then ret (None, GenDone)
          else shard_loop shard_query stores
      end
  | GenDone => ret (None, GenDone)
  end.

(** [self.shard_query_generator(query)]: calling a generator function
    runs none of its body; it gives the generator, not started. *)
Definition ShardedDatastore_shard_query_generator (self : ShardedDatastore)
    (query : qref) : Generator :=
  GenStart self query.

(** The loop run to its end, all items collected. *)
Fixpoint shard_loop_list (shard_query : qref) (stores : list loc)
  : M (list Value) :=
  match stores with
  | [] => ret []
  | shard :: stores' =>
      let* cursor := call_query shard shard_query in
      let* done := shard_query_update shard_query cursor in
      if done then ret (items cursor)
      else
        let* tail := shard_loop_list shard_query stores' in
        ret (items cursor ++ tail)
  end.

(** [list(generator)]: every item from the current point on. *)
Definition Generator_list (g : Generator) : M (list Value) :=
  match g with
  | GenStart self query =>
      let* shard_query := Query_copy query in
      shard_loop_list shard_query (sharded_stores self)
  | GenYield shard_query cursor pending stores =>
      let* done := shard_query_update shard_query cursor in
      if done then ret pending
      else
        let* tail := shard_loop_list shard_query stores in
        ret (pending ++ tail)
  | GenDone => ret []
  end.

(** [next] called [fuel] times at most, up to [StopIteration]. *)
Fixpoint Generator_take (fuel : nat) (g : Generator)
  : M (list Value * Generator) :=
  match fuel with
  | O => ret ([], g)
  | Datatypes.S fuel' =>
      let* r := Generator_next g in
      match r with
      | (None, g') => ret ([], g')
      | (Some item, g') =>
          let* r' := Generator_take fuel' g' in
          ret (item :: fst r', snd r')
      end
  end.

(** The [Cursor] that [ShardedDatastore.query] builds: the caller's
    [Query] object and [_iterable], which is the generator or, once the
    results have been materialised, a list. *)
Inductive Iterable : Type :=
| FromGenerator (g : Generator)
| FromList (l : list Value).

Record ShardedCursor : Type := mkShardedCursor {
  cursor_query : qref;
  _iterable : Iterable
}.

Definition Iterable_list (it : Iterable) : M (list Value) :=
  match it with
  | FromGenerator g => Generator_list g
  | FromList l => ret l
  end.

(** Whether the query carries an order directive. *)
Definition has_order (q : Query) : bool :=
  match order q with
  | Some (_ :: _) => true
  | _ => false
  end.

(** Modelled from the spec: [Cursor.apply_order] (query.py), the explicit
    eager step: when an order directive is present the results are fully
    materialised and sorted before the first item is exposed; without one
    the cursor stays on its lazy path. *)
Definition Cursor_apply_order (cursor : ShardedCursor) : M ShardedCursor :=
  let* q := Query_read (cursor_query cursor) in
  match order q with
  | Some (o :: os) =>
      let* l := Iterable_list (_iterable cursor) in
      ret (mkShardedCursor (cursor_query cursor)
             (FromList (Order_sorted (o :: os) l)))
  | _ => ret cursor
  end.

(** [cursor = Cursor(query, self.shard_query_generator(query))],
    [cursor.apply_order()], [return cursor]. *)
Definition ShardedDatastore_query (self : ShardedDatastore) (query : qref)
  : M ShardedCursor :=
  let cursor :=
    mkShardedCursor query
      (FromGenerator (ShardedDatastore_shard_query_generator self query)) in
  Cursor_apply_order cursor.

(** Whether the update after [cursor] leaves the loop: the clone's limit
    is neither [None] nor 0, and [cursor] has returned that many items. *)
Definition limit_used_up (q : Query) (cursor : Cursor) : bool :=
  match limit q with
  | Some l => bool_decide (l ≠ 0 ∧ l ≤ Z.of_nat (returned cursor))
  | None => false
  end.

(** The shards that a list of calls queried, in order. *)
Definition visited (es : list Event) : list loc :=
  omap (λ e, match e with EQuery store _ => Some store | _ => None end) es.

(** [item] put in front of the list that [r] gives. *)
Definition cons_result (item : Value) (r : result (list Value) * World)
  : result (list Value) * World :=
  match r with
  | (Ok l, w) => (Ok (item :: l), w)
  | (Raise e, w) => (Raise e, w)
  end.

(** ** Frame conditions on the [Query] objects *)

(** From [w] to [w'] no [Query] object below [n0] has changed, and no
    reference has been given back. *)
Definition untouched (n0 : qref) (w w' : World) : Prop :=
  (qnext w ≤ qnext w')%nat ∧ ∀ q, (q < n0)%nat → queries w' q = queries w q.

(** [m], run in a world where the references below [n0] are allocated,
    leaves the [Query] objects below [n0] as they are, whether it returns
    or raises, and what it returns satisfies [P]. *)
Definition safe {A : Type} (n0 : qref) (m : M A) (P : A → Prop) : Prop :=
  ∀ w, (n0 ≤ qnext w)%nat →
    untouched n0 w (m w).2 ∧ ∀ a w', m w = (Ok a, w') → P a.

(** A generator that is suspended works on a clone at or above [n0]. *)
Definition gen_fresh (n0 : qref) (g : Generator) : Prop :=
  match g with
  | GenYield shard_query _ _ _ => (n0 ≤ shard_query)%nat
  | _ => True
  end.

Definition iterable_fresh (n0 : qref) (it : Iterable) : Prop :=
  match it with
  | FromGenerator g => gen_fresh n0 g
  | FromList _ => True
  end.

(** ** The other methods of basic.py *)

(** [Key(s)] and [parent.child(key)] of key.py. *)
Variable Key_of_string : string → Key.
Variable key_child : Key → Key → Key.

(** [DictDatastore.__len__]: [sum(map(len, self._items.values()))]. *)
Definition DictDatastore_len (self : DictDatastore) : nat :=
  sum_list_with (λ kc : string * gmap Key Value, size kc.2)
    (map_to_list (_items self)).

(** Every collection of a [DictDatastore] holds only keys of its own
    name. *)
Definition Dict_wf (self : DictDatastore) : Prop :=
  ∀ name c k, _items self !! name = Some c → is_Some (c !! k) →
    key_str (key_path k) = name.

(** [Datastore.contains], the default of the base class:
    [self.get(key) is not None]. *)
Definition Datastore_contains (get : Key → M (option Value)) (key : Key)
  : M bool :=
  let* v := get key in
  ret (bool_decide (is_Some v)).

(** A lawful child whose [delete] removes its key and nothing else. *)
Class LawfulDelete (view : S → Key → option Value) : Prop := {
  lawful_delete : ∀ k s, ∃ s',
    ds_delete k s = (Ok tt, s')
    ∧ view s' k = None
    ∧ ∀ k', k' ≠ k → view s' k' = view s k'
}.

(** A lawful child whose [contains] tells whether it holds the key. *)
Class LawfulContains (view : S → Key → option Value) : Prop := {
  lawful_contains : ∀ k s, ∃ s',
    ds_contains k s = (Ok (bool_decide (is_Some (view s k))), s')
    ∧ ∀ k', view s' k' = view s k'
}.

(** A child whose cursors count what they yield and respect the limit of
    the query they run. *)
Class CountingQuery : Prop := {
  counting_query : ∀ q s c s',
    ds_query q s = (Ok c, s') →
    length (items c) = returned c
    ∧ ∀ l, limit q = Some l → Z.of_nat (returned c) ≤ Z.max l 0
}.

(** [str.lower()] on ASCII letters. *)
Definition ascii_lower (c : ascii) : ascii :=
  let n := nat_of_ascii c in
  if (65 <=? n)%nat && (n <=? 90)%nat then ascii_of_nat (n + 32) else c.

Fixpoint str_lower (s : string) : string :=
  match s with
  | EmptyString => EmptyString
  | String c s' => String (ascii_lower c) (str_lower s')
  end.

(** [LowercaseKeyDatastore.lowercaseKey]: [Key(str(key).lower())]. *)
Definition LowercaseKeyDatastore_lowercaseKey (key : Key) : Key :=
  Key_of_string (str_lower (key_str key)).

(** A [LowercaseKeyDatastore] is a [KeyTransformDatastore] whose
    [keytransform] is [lowercaseKey]. *)
Definition LowercaseKeyDatastore_init (datastore : loc)
  : KeyTransformDatastore :=
  mkKeyTransform datastore (Some (λ key, Ok (LowercaseKeyDatastore_lowercaseKey key))).

(** [NamespaceDatastore.namespaceKey]: [self.namespace.child(key)]. *)
Definition NamespaceDatastore_namespaceKey (namespace key : Key) : Key :=
  key_child namespace key.

Definition NamespaceDatastore_init (namespace : Key) (datastore : loc)
  : KeyTransformDatastore :=
  mkKeyTransform datastore
    (Some (λ key, Ok (NamespaceDatastore_namespaceKey namespace key))).

(** [s * n] on a string: [n] copies of [s], none when [n] is not
    positive. *)
Fixpoint str_repeat (s : string) (n : nat) : string :=
  match n with
  | O => EmptyString
  | Datatypes.S n' => (s +:+ str_repeat s n')%string
  end.

Definition str_mul (s : string) (n : Z) : string := str_repeat s (Z.to_nat n).

(** [NestedPathDatastore.nestKey], with [self.nest_keyfn] beside [self]:
    [nest = self.nest_keyfn(key)],
    [mult = 1 + int(self.nest_depth * self.nest_length / len(nest))] (the
    division of two integers; it raises on an empty [nest]),
    [nest = nest * mult],
    [pref = Key(self.nestedPath(nest, self.nest_depth, self.nest_length))],
    [return pref.child(key)]. *)
Definition NestedPathDatastore_nestKey (nest_keyfn : Key → string)
    (self : NestedPathDatastore) (key : Key) : result Key :=
  let nest := nest_keyfn key in
  if decide (String.length nest = 0%nat) then Raise ZeroDivisionError
  else
    let mult :=
      1 + nest_depth self * nest_length self / Z.of_nat (String.length nest) in
    let nest := str_mul nest mult in
    match nestedPath nest (nest_depth self) (nest_length self) with
    | Ok p => Ok (key_child (Key_of_string p) key)
    | Raise e => Raise e
    end.

(** ** DatastoreCollection, on [self._stores] *)

(** [datastore(index)]: [self._stores[index]]. *)
Definition DatastoreCollection_datastore (stores : list loc) (index : Z)
  : result loc :=
  list_getitem stores index.

(** [appendDatastore(store)]: [self._stores.append(store)]. *)
Definition DatastoreCollection_appendDatastore (stores : list loc)
    (store : loc) : list loc :=
  stores ++ [store].

(** [list.remove(x)]: the first item equal to [x] is removed; [None] when
    there is none. *)
Fixpoint list_remove_first (x : loc) (l : list loc) : option (list loc) :=
  match l with
  | [] => None
  | y :: l' =>
      if decide (y = x) then Some l'
      else cons y <$> list_remove_first x l'
  end.

(** [removeDatastore(store)]: [self._stores.remove(store)], a [ValueError]
    when the store is not in the list. *)
Definition DatastoreCollection_removeDatastore (stores : list loc)
    (store : loc) : result (list loc) :=
  match list_remove_first store stores with
  | Some stores' => Ok stores'
  | None => Raise ValueError
  end.


(** * Properties *)

(** ** nestedPath *)

Lemma substring_empty n m : substring n m "" = "".
Proof. by destruct n, m. Qed.

Lemma substring_drop k i m s :
  substring (k + i) m s = substring i m (string_drop k s).
Proof.
  revert s. induction k as [|k IH]; intros s; [done|].
  destruct s as [|c s].
  - by rewrite !substring_empty.
  - apply IH.
Qed.

Lemma substring_clip n m s :
  substring n (Nat.min m (String.length s - n)) s = substring n m s.
Proof.
  revert n m. induction s as [|c s IH]; intros n m.
  - by rewrite !substring_empty.
  - destruct n as [|n]; simpl.
    + destruct m as [|m]; simpl; [done|].
      f_equal. rewrite <- (IH 0%nat m). by rewrite Nat.sub_0_r.
    + apply IH.
Qed.

Lemma string_drop_length n s :
  String.length (string_drop n s) = (String.length s - n)%nat.
Proof.
  revert s. induction n as [|n IH]; intros [|c s]; simpl; auto.
Qed.

(** The slices that [nestedPath] takes are the chunks. *)
Lemma chunks_fuel_slices (fuel : nat) (len : Z) (s : string) :
  0 < len →
  (String.length s ≤ fuel)%nat →
  chunks_fuel fuel (Z.to_nat len) s
  = map (λ i : nat, substring (i * Z.to_nat len) (Z.to_nat len) s)
      (seq 0 (Z.to_nat ((Z.of_nat (String.length s) + len - 1) / len))).
Proof.
  intros Hlen. revert s.
  induction fuel as [|fuel IH]; intros s Hs.
  - destruct s; simpl in Hs; [|lia]. simpl.
    rewrite Z.div_small by lia. done.
  - destruct s as [|c s].
    + simpl. rewrite Z.div_small by lia. done.
    + set (t := String c s) in *.
      assert (Ht : (1 ≤ String.length t)%nat) by (unfold t; simpl; lia).
      assert (Hcnt : Z.to_nat ((Z.of_nat (String.length t) + len - 1) / len)
        = Datatypes.S (Z.to_nat
            ((Z.of_nat (String.length (string_drop (Z.to_nat len) t))
              + len - 1) / len))).
      { rewrite string_drop_length.
        destruct (decide (Z.of_nat (String.length t) ≤ len)) as [Hle|Hgt].
        - replace (String.length t - Z.to_nat len)%nat with 0%nat by lia.
          rewrite (Z.div_small (Z.of_nat 0 + len - 1)) by lia.
          replace (Z.of_nat (String.length t) + len - 1)
            with (Z.of_nat (String.length t) - 1 + 1 * len) by lia.
          rewrite Z.div_add by lia. rewrite Z.div_small by lia. done.
        - replace (Z.of_nat (String.length t) + len - 1)
            with (Z.of_nat (String.length t - Z.to_nat len) + len - 1
                  + 1 * len) by lia.
          rewrite Z.div_add by lia.
          rewrite Z2Nat.inj_add; [lia| |lia].
          apply Z.div_pos; lia. }
      rewrite Hcnt.
      change (chunks_fuel (Datatypes.S fuel) (Z.to_nat len) t)
        with (substring 0 (Z.to_nat len) t
              :: chunks_fuel fuel (Z.to_nat len)
                   (string_drop (Z.to_nat len) t)).
      rewrite IH by (rewrite string_drop_length; lia).
      cbn [seq map]. f_equal.
      rewrite <- seq_shift, map_map.
      apply map_ext. intros i.
      rewrite <- substring_drop. f_equal; lia.
Qed.

Lemma nestedPath_components (path : string) (len : Z) :
  0 < len →
  map (λ n, str_slice path n (n + len))
    (map (λ i : nat, 0 + Z.of_nat i * len)
       (seq 0 (Z.to_nat ((Z.of_nat (String.length path) - 0 + len - 1) / len))))
  = chunks (Z.to_nat len) path.
Proof.
  intros Hlen. unfold chunks.
  rewrite (chunks_fuel_slices _ len) by (done || lia).
  rewrite map_map, Z.sub_0_r.
  apply map_ext_in. intros i Hi. apply in_seq in Hi.
  set (L := Z.of_nat (String.length path)) in *.
  assert (Hi' : Z.of_nat i * len < L).
  { destruct Hi as [_ Hi]. simpl in Hi.
    assert (Z.of_nat i < (L + len - 1) / len).
    { destruct (decide (0 ≤ (L + len - 1) / len)); lia. }
    assert (len * ((L + len - 1) / len) ≤ L + len - 1)
      by (apply Z.mul_div_le; lia).
    nia. }
  unfold str_slice, slice_bound. fold L.
  repeat case_decide; try lia.
  rewrite Z.min_l by lia.
  replace (Z.to_nat (0 + Z.of_nat i * len)) with (i * Z.to_nat len)%nat by nia.
  rewrite <- (substring_clip _ (Z.to_nat len)). f_equal.
  unfold L. nia.
Qed.

Lemma list_slice_to_take {A : Type} (l : list A) (j : Z) :
  0 ≤ j → list_slice_to l j = take (Z.to_nat j) l.
Proof.
  intros Hj. unfold list_slice_to, slice_bound.
  case_decide; [lia|].
  destruct (decide (j ≤ Z.of_nat (length l))).
  - by rewrite Z.min_l.
  - rewrite Z.min_r by lia. rewrite Nat2Z.id.
    rewrite !take_ge; [done|lia|lia].
Qed.

(** C5. For a positive [length] and a [depth] that is not negative,
    [nestedPath] cuts its input into consecutive chunks of [length]
    characters, keeps the first [depth] chunks and joins them with "/";
    on "abcdefghijk" it gives the five documented results. *)
Theorem nestedPath_chunks :
  (∀ (path : string) (depth length : Z),
     0 < length → 0 ≤ depth →
     nestedPath path depth length
     = Ok (String.concat "/"
             (take (Z.to_nat depth) (chunks (Z.to_nat length) path))))
  ∧ nestedPath "abcdefghijk" 3 2 = Ok "ab/cd/ef"
  ∧ nestedPath "abcdefghijk" 4 2 = Ok "ab/cd/ef/gh"
  ∧ nestedPath "abcdefghijk" 3 4 = Ok "abcd/efgh/ijk"
  ∧ nestedPath "abcdefghijk" 1 4 = Ok "abcd"
  ∧ nestedPath "abcdefghijk" 3 10 = Ok "abcdefghij/k".
Proof.
  split; [|by vm_compute].
  intros path depth len Hlen Hdepth.
  unfold nestedPath, xrange.
  case_decide; [lia|]. case_decide; [|lia].
  rewrite nestedPath_components by done.
  by rewrite list_slice_to_take.
Qed.

(** ** DictDatastore *)

Lemma Dict_get_view key self :
  (DictDatastore_get key self).1 = Dict_view self key.
Proof.
  unfold DictDatastore_get, DictDatastore__collection, Dict_view.
  destruct (_items self !! key_str (key_path key)) as [c|] eqn:E; simpl; done.
Qed.

Lemma Dict_get_preserves key self key' :
  Dict_view (DictDatastore_get key self).2 key' = Dict_view self key'.
Proof.
  unfold DictDatastore_get, DictDatastore__collection, Dict_view.
  destruct (_items self !! key_str (key_path key)) as [c|] eqn:E; simpl; [done|].
  destruct (decide (key_str (key_path key) = key_str (key_path key'))) as [e|n].
  - rewrite <- e, lookup_insert_eq, E. simpl. apply lookup_empty.
  - by rewrite lookup_insert_ne.
Qed.

Lemma Dict_put_view key v self :
  Dict_view (DictDatastore_put key (Some v) self) key = Some v.
Proof.
  unfold DictDatastore_put, DictDatastore__collection, Dict_view.
  destruct (_items self !! key_str (key_path key)) as [c|] eqn:E; simpl;
    rewrite lookup_insert_eq; simpl; apply lookup_insert_eq.
Qed.

Lemma Dict_put_view_ne key v self key' :
  key ≠ key' →
  Dict_view (DictDatastore_put key (Some v) self) key' = Dict_view self key'.
Proof.
  intros Hne.
  unfold DictDatastore_put, DictDatastore__collection, Dict_view.
  destruct (decide (key_str (key_path key) = key_str (key_path key'))) as [e|n].
  - rewrite <- e.
    destruct (_items self !! key_str (key_path key)) as [c|] eqn:E; simpl;
      rewrite lookup_insert_eq; simpl; by rewrite lookup_insert_ne.
  - destruct (_items self !! key_str (key_path key)) as [c|] eqn:E; simpl;
      rewrite !lookup_insert_ne by done; done.
Qed.

Lemma Dict_delete_view key self :
  Dict_view (DictDatastore_delete key self) key = None.
Proof.
  unfold DictDatastore_delete, DictDatastore__collection, Dict_view.
  destruct (_items self !! key_str (key_path key)) as [c|] eqn:E; simpl.
  - destruct (c !! key) as [v|] eqn:Ek; simpl.
    + rewrite lookup_insert_eq.
      case_decide; simpl.
      * by rewrite lookup_delete_eq.
      * rewrite lookup_insert_eq. simpl. apply lookup_delete_eq.
    + by rewrite E.
  - rewrite lookup_empty. simpl. rewrite lookup_insert_eq. simpl.
    apply lookup_empty.
Qed.

(** A [DictDatastore] is a lawful child, with [Dict_view] as content. *)
Lemma Dict_lawful : LawfulDatastore (S := DictDatastore) Dict_view.
Proof.
  split.
  - intros k s. exists (DictDatastore_get k s).2. split.
    + simpl. rewrite <- Dict_get_view. by destruct (DictDatastore_get k s).
    + intros k'. apply Dict_get_preserves.
  - intros k v s. exists (DictDatastore_put k (Some v) s). split_and!.
    + done.
    + apply Dict_put_view.
    + intros k' Hne. by apply Dict_put_view_ne.
Qed.

(** C7. For every [DictDatastore] state, key [k] and value [v] other than
    [None], [put(k, v)] followed by [get(k)] returns [v]. *)
Theorem DictDatastore_put_get (self : DictDatastore) (k : Key) (v : Value) :
  (DictDatastore_get k (DictDatastore_put k (Some v) self)).1 = Some v.
Proof. rewrite Dict_get_view. apply Dict_put_view. Qed.

(** C6. For every [DictDatastore] state and key [k], [put(k, None)]
    followed by [get(k)] returns [None], and the state that
    [put(k, None)] produces is the state that [delete(k)] produces. *)
Theorem DictDatastore_put_None_is_delete (self : DictDatastore) (k : Key) :
  (DictDatastore_get k (DictDatastore_put k None self)).1 = None
  ∧ DictDatastore_put k None self = DictDatastore_delete k self
  ∧ DictDatastore_get k (DictDatastore_put k None self)
    = DictDatastore_get k (DictDatastore_delete k self).
Proof.
  split_and!; [|done|done].
  rewrite Dict_get_view. apply Dict_delete_view.
Qed.

(** ** NestedPathDatastore *)

(** C9. For every [NestedPathDatastore] and every query, [query] raises
    [NotImplementedError]; it never returns a cursor, empty or not. *)
Theorem NestedPathDatastore_query_raises (self : NestedPathDatastore)
    (query : qref) (w : World) :
  NestedPathDatastore_query self query w = (Raise NotImplementedError, w)
  ∧ ∀ (cursor : Cursor) (w' : World),
      NestedPathDatastore_query self query w ≠ (Ok cursor, w').
Proof. split; [done|]. intros cursor w'. by unfold NestedPathDatastore_query, raise. Qed.

(** ** ShardedDatastore: routing *)

Lemma list_getitem_in_range {A : Type} (l : list A) (i : Z) :
  0 ≤ i < Z.of_nat (length l) →
  ∃ x, list_getitem l i = Ok x ∧ l !! Z.to_nat i = Some x.
Proof.
  intros Hi. unfold list_getitem.
  repeat case_decide; try lia.
  destruct (lookup_lt_is_Some_2 l (Z.to_nat i)) as [x Hx]; [lia|].
  exists x. by rewrite Hx.
Qed.

(** C10. A [ShardedDatastore] with an empty list of shards is accepted by
    the constructor, and then [get], [put], [delete] and [contains] all
    raise [ZeroDivisionError] (the shard index is taken modulo the number
    of stores); with at least one shard the index is in range and each of
    the four is the call on the selected shard. *)
Theorem ShardedDatastore_needs_a_shard (shardingfn : Key → Z) :
  (∃ self, ShardedDatastore_init [] shardingfn = Ok self
     ∧ ∀ key value w,
         ShardedDatastore_get self key w = (Raise ZeroDivisionError, w)
         ∧ ShardedDatastore_put self key value w = (Raise ZeroDivisionError, w)
         ∧ ShardedDatastore_delete self key w = (Raise ZeroDivisionError, w)
         ∧ ShardedDatastore_contains self key w = (Raise ZeroDivisionError, w))
  ∧ (∀ stores key, stores ≠ [] →
       ∃ self store,
         ShardedDatastore_init stores shardingfn = Ok self
         ∧ ShardedDatastore_shardDatastore self key = Ok store
         ∧ stores !! Z.to_nat (shardingfn key `mod` Z.of_nat (length stores))
           = Some store
         ∧ ∀ value w,
             ShardedDatastore_get self key w = call_get store key w
             ∧ ShardedDatastore_put self key value w
               = call_put store key value w
             ∧ ShardedDatastore_delete self key w = call_delete store key w
             ∧ ShardedDatastore_contains self key w
               = call_contains store key w).
Proof.
  split.
  - eexists. split; [done|]. intros key value w. done.
  - intros stores key Hne.
    assert (Hlen : 0 < Z.of_nat (length stores)) by (destruct stores; simpl; [done|lia]).
    destruct (list_getitem_in_range stores
                (shardingfn key `mod` Z.of_nat (length stores)))
      as (store & Hget & Hlook); [by apply Z.mod_pos_bound|].
    exists (mkSharded stores shardingfn), store.
    assert (Hsd : ShardedDatastore_shardDatastore
                    (mkSharded stores shardingfn) key = Ok store).
    { unfold ShardedDatastore_shardDatastore, ShardedDatastore_shard,
        ShardedDatastore_datastore. simpl.
      case_decide; [lia|]. done. }
    split_and!; [done|done|done|].
    intros value w.
    unfold ShardedDatastore_get, ShardedDatastore_put, ShardedDatastore_delete,
      ShardedDatastore_contains, bind, lift.
    by rewrite Hsd.
Qed.

(** ** The monad *)

Lemma bind_Ok {A B : Type} (m : M A) (f : A → M B) w a w' :
  m w = (Ok a, w') → bind m f w = f a w'.
Proof. intros Hm. unfold bind. by rewrite Hm. Qed.

Lemma bind_Raise {A B : Type} (m : M A) (f : A → M B) w e w' :
  m w = (Raise e, w') → bind m f w = (Raise e, w').
Proof. intros Hm. unfold bind. by rewrite Hm. Qed.

Lemma ret_eq {A : Type} (a : A) w : ret a w = (Ok a, w).
Proof. reflexivity. Qed.

(** ** TieredDatastore over lawful children *)

Section Lawful.

Context (view : S → Key → option Value) `{!LawfulDatastore view}.

Lemma call_get_lawful store key w :
  ∃ w', call_get store key w = (Ok (view (heap w store) key), w')
    ∧ (∀ l k, view (heap w' l) k = view (heap w l) k)
    ∧ calls w' = calls w ++ [EGet store key].
Proof.
  destruct (lawful_get key (heap w store)) as (s' & Hget & Hview).
  unfold call_get, call. rewrite Hget.
  eexists. split_and!; [done| |done].
  intros l k. simpl.
  destruct (decide (store = l)) as [->|Hne].
  - by rewrite fn_lookup_insert.
  - by rewrite fn_lookup_insert_ne.
Qed.

Lemma call_put_lawful store key v w :
  ∃ w', call_put store key (Some v) w = (Ok tt, w')
    ∧ view (heap w' store) key = Some v
    ∧ (∀ l k, (l ≠ store ∨ k ≠ key) → view (heap w' l) k = view (heap w l) k)
    ∧ calls w' = calls w ++ [EPut store key (Some v)].
Proof.
  destruct (lawful_put key v (heap w store)) as (s' & Hput & Hk & Hother).
  unfold call_put, call. rewrite Hput.
  eexists. split_and!; [done| | |done]; simpl.
  - by rewrite fn_lookup_insert.
  - intros l k Hlk.
    destruct (decide (store = l)) as [<-|Hne].
    + rewrite fn_lookup_insert. apply Hother. by destruct Hlk.
    + by rewrite fn_lookup_insert_ne.
Qed.

Lemma TieredDatastore_get_probe_miss key stores w :
  (∀ l, l ∈ stores → view (heap w l) key = None) →
  ∃ w', TieredDatastore_get_probe key stores w = (Ok None, w')
    ∧ (∀ l k, view (heap w' l) k = view (heap w l) k)
    ∧ calls w' = calls w ++ map (λ l, EGet l key) stores.
Proof.
  revert w. induction stores as [|store stores IH]; intros w Hnone.
  - exists w. simpl. by rewrite app_nil_r.
  - destruct (call_get_lawful store key w) as (w1 & Hget & Hview1 & Hcalls1).
    rewrite Hnone in Hget by left.
    destruct (IH w1) as (w' & Hprobe & Hview & Hcalls).
    { intros l Hl. rewrite Hview1. apply Hnone. by right. }
    exists w'. split_and!.
    + simpl. by rewrite (bind_Ok _ _ _ _ _ Hget).
    + intros l k. by rewrite Hview, Hview1.
    + rewrite Hcalls, Hcalls1. simpl. by rewrite <- app_assoc.
Qed.

Lemma TieredDatastore_get_probe_hit key stores w i store v :
  stores !! i = Some store →
  view (heap w store) key = Some v →
  (∀ j l, (j < i)%nat → stores !! j = Some l → view (heap w l) key = None) →
  ∃ w', TieredDatastore_get_probe key stores w = (Ok (Some (store, v)), w')
    ∧ (∀ l k, view (heap w' l) k = view (heap w l) k)
    ∧ calls w' = calls w ++ map (λ l, EGet l key) (take (Datatypes.S i) stores).
Proof.
  revert w i. induction stores as [|store0 stores IH]; intros w i Hi Hv Hbefore;
    [done|].
  destruct (call_get_lawful store0 key w) as (w1 & Hget & Hview1 & Hcalls1).
  destruct i as [|i]; simpl in Hi.
  - injection Hi as ->. rewrite Hv in Hget.
    exists w1. split_and!; [|done|].
    + simpl. by rewrite (bind_Ok _ _ _ _ _ Hget).
    + rewrite Hcalls1. simpl. by rewrite ?take_0.
  - rewrite (Hbefore 0%nat store0) in Hget by (done || lia).
    destruct (IH w1 i) as (w' & Hprobe & Hview & Hcalls).
    { done. }
    { by rewrite Hview1. }
    { intros j l Hj Hl. rewrite Hview1. apply (Hbefore (Datatypes.S j)); [lia|done]. }
    exists w'. split_and!.
    + simpl. by rewrite (bind_Ok _ _ _ _ _ Hget).
    + intros l k. by rewrite Hview, Hview1.
    + rewrite Hcalls, Hcalls1. simpl. by rewrite <- app_assoc.
Qed.

Lemma TieredDatastore_get_promote_lawful key v store stores w i :
  stores !! i = Some store →
  (∀ j l, (j < i)%nat → stores !! j = Some l → l ≠ store) →
  ∃ w', TieredDatastore_get_promote key v store stores w = (Ok tt, w')
    ∧ calls w' = calls w ++ map (λ l, EPut l key (Some v)) (take i stores)
    ∧ (∀ l, view (heap w l) key = Some v → view (heap w' l) key = Some v)
    ∧ (∀ j l, (j < i)%nat → stores !! j = Some l →
         view (heap w' l) key = Some v).
Proof.
  revert w i. induction stores as [|store2 stores IH]; intros w i Hi Hne; [done|].
  destruct i as [|i]; simpl in Hi.
  - injection Hi as ->. exists w. simpl.
    case_decide; [|done].
    split_and!; try done; [by rewrite app_nil_r|intros; lia].
  - assert (Hne2 : store ≠ store2).
    { intros ->. apply (Hne 0%nat store2); [lia|done|done]. }
    destruct (call_put_lawful store2 key v w) as (w1 & Hput & Hk & Hother & Hcalls1).
    destruct (IH w1 i) as (w' & Hprom & Hcalls & Hkeep & Hdone).
    { done. }
    { intros j l Hj Hl. apply (Hne (Datatypes.S j)); [lia|done]. }
    exists w'. split_and!.
    + simpl. case_decide; [done|]. by rewrite (bind_Ok _ _ _ _ _ Hput).
    + rewrite Hcalls, Hcalls1. simpl. by rewrite <- app_assoc.
    + intros l Hl. apply Hkeep.
      destruct (decide (l = store2)) as [->|Hl2]; [done|].
      rewrite Hother by (by left). done.
    + intros j l Hj Hl. destruct j as [|j]; simpl in Hl.
      * injection Hl as <-. by apply Hkeep.
      * apply (Hdone j); [lia|done].
Qed.

(** C3. On tiers T0..Tn that behave as key-value stores (aliased or not),
    [get(k)] returns the value of the first tier, in order, that holds
    [k], or [None] when no tier holds it; when the value
    is found at tier [i], exactly the tiers [0..i-1] are written by [put],
    in order, before [get] returns, and they hold the value afterwards; a
    hit at tier 0 makes no [put]. *)
Theorem TieredDatastore_get_promotes (self : TieredDatastore) (key : Key)
    (w : World) :
  ((∀ l, l ∈ tiered_stores self → view (heap w l) key = None) →
     ∃ w', TieredDatastore_get self key w = (Ok None, w')
       ∧ calls w' = calls w ++ map (λ l, EGet l key) (tiered_stores self))
  ∧ (∀ i store v,
       tiered_stores self !! i = Some store →
       view (heap w store) key = Some v →
       (∀ j l, (j < i)%nat → tiered_stores self !! j = Some l →
          view (heap w l) key = None) →
       ∃ w', TieredDatastore_get self key w = (Ok (Some v), w')
         ∧ calls w'
           = calls w
             ++ map (λ l, EGet l key) (take (Datatypes.S i) (tiered_stores self))
             ++ map (λ l, EPut l key (Some v)) (take i (tiered_stores self))
         ∧ (∀ j l, (j < i)%nat → tiered_stores self !! j = Some l →
              view (heap w' l) key = Some v)
         ∧ (i = 0%nat → calls w' = calls w ++ [EGet store key])).
Proof.
  split.
  - intros Hnone.
    destruct (TieredDatastore_get_probe_miss key _ w Hnone)
      as (w' & Hprobe & _ & Hcalls).
    exists w'. unfold TieredDatastore_get.
    by rewrite (bind_Ok _ _ _ _ _ Hprobe).
  - intros i store v Hi Hv Hbefore.
    destruct (TieredDatastore_get_probe_hit key _ w i store v Hi Hv Hbefore)
      as (w1 & Hprobe & Hview1 & Hcalls1).
    destruct (TieredDatastore_get_promote_lawful key v store
                (tiered_stores self) w1 i Hi)
      as (w' & Hprom & Hcalls & _ & Hdone).
    { intros j l Hj Hl ->.
      specialize (Hbefore j store Hj Hl). congruence. }
    exists w'. split_and!.
    + unfold TieredDatastore_get.
      rewrite (bind_Ok _ _ _ _ _ Hprobe).
      by rewrite (bind_Ok _ _ _ _ _ Hprom).
    + rewrite Hcalls, Hcalls1. by rewrite <- app_assoc.
    + done.
    + intros ->. rewrite Hcalls, Hcalls1.
      destruct (tiered_stores self) as [|s0 ss]; [done|].
      simpl in Hi. injection Hi as ->. simpl.
      by rewrite ?take_0, ?app_nil_r.
Qed.

Lemma TieredDatastore_put_loop_lawful key v stores w :
  ∃ w', TieredDatastore_put_loop key (Some v) stores w = (Ok tt, w')
    ∧ calls w' = calls w ++ map (λ l, EPut l key (Some v)) stores
    ∧ (∀ l, view (heap w l) key = Some v → view (heap w' l) key = Some v)
    ∧ (∀ l, l ∈ stores → view (heap w' l) key = Some v).
Proof.
  revert w. induction stores as [|store stores IH]; intros w.
  - exists w. simpl. split_and!; [done|by rewrite app_nil_r|done|].
    intros l Hl. by apply elem_of_nil in Hl.
  - destruct (call_put_lawful store key v w) as (w1 & Hput & Hk & Hother & Hcalls1).
    destruct (IH w1) as (w' & Hloop & Hcalls & Hkeep & Hall).
    exists w'. split_and!.
    + simpl. by rewrite (bind_Ok _ _ _ _ _ Hput).
    + rewrite Hcalls, Hcalls1. simpl. by rewrite <- app_assoc.
    + intros l Hl. apply Hkeep.
      destruct (decide (l = store)) as [->|Hne]; [done|].
      rewrite Hother by (by left). done.
    + intros l Hl. apply elem_of_cons in Hl as [->|Hl]; [by apply Hkeep|by apply Hall].
Qed.

(** C4. On tiers that behave as key-value stores, [put(k, v)] with [v]
    other than [None] calls [put(k, v)] on every tier, in order and
    whatever the tiers hold; afterwards [get(k)] on each
    tier itself returns [v]. *)
Theorem TieredDatastore_put_writes_through (self : TieredDatastore)
    (key : Key) (v : Value) (w : World) :
  ∃ w', TieredDatastore_put self key (Some v) w = (Ok tt, w')
    ∧ calls w' = calls w ++ map (λ l, EPut l key (Some v)) (tiered_stores self)
    ∧ ∀ l, l ∈ tiered_stores self →
        ∃ s', ds_get key (heap w' l) = (Ok (Some v), s').
Proof.
  destruct (TieredDatastore_put_loop_lawful key v (tiered_stores self) w)
    as (w' & Hloop & Hcalls & _ & Hall).
  exists w'. split_and!; [done|done|].
  intros l Hl.
  destruct (lawful_get key (heap w' l)) as (s' & Hget & _).
  exists s'. by rewrite Hget, (Hall l Hl).
Qed.

End Lawful.

(** ** The caller's Query object *)

Lemma untouched_refl n0 w : untouched n0 w w.
Proof. by split. Qed.

Lemma untouched_trans n0 w1 w2 w3 :
  untouched n0 w1 w2 → untouched n0 w2 w3 → untouched n0 w1 w3.
Proof.
  intros [Hn1 Hq1] [Hn2 Hq2]. split; [lia|].
  intros q Hq. by rewrite Hq2, Hq1.
Qed.

Lemma safe_ret {A : Type} n0 (a : A) (P : A → Prop) :
  P a → safe n0 (ret a) P.
Proof.
  intros HP w Hw. split; [apply untouched_refl|].
  intros a' w' [= <- <-]. done.
Qed.

Lemma safe_raise {A : Type} n0 e (P : A → Prop) : safe n0 (raise e) P.
Proof. intros w Hw. split; [apply untouched_refl|]. intros a' w' [=]. Qed.

Lemma safe_lift {A : Type} n0 (r : result A) :
  safe n0 (lift r) (λ a, r = Ok a).
Proof.
  intros w Hw. split; [apply untouched_refl|].
  intros a' w' [= -> <-]. done.
Qed.

Lemma safe_bind {A B : Type} n0 (m : M A) (f : A → M B) P Q :
  safe n0 m P → (∀ a, P a → safe n0 (f a) Q) → safe n0 (bind m f) Q.
Proof.
  intros Hm Hf w Hw. destruct (Hm w Hw) as [Hu HP].
  unfold bind. destruct (m w) as [[a|e] w1] eqn:E; simpl in *.
  - destruct Hu as [Hn Hq].
    destruct (Hf a (HP a w1 eq_refl) w1) as [Hu' HQ]; [lia|].
    split; [|done].
    by apply (untouched_trans _ _ w1).
  - split; [done|]. intros b w' [=].
Qed.

Lemma safe_weaken {A : Type} n0 (m : M A) (P Q : A → Prop) :
  safe n0 m P → (∀ a, P a → Q a) → safe n0 m Q.
Proof.
  intros Hm HPQ w Hw. destruct (Hm w Hw) as [Hu HP].
  split; [done|]. intros a w' Ha. eauto.
Qed.

Lemma safe_call {A : Type} n0 store e (m : S → result A * S) :
  safe n0 (call store e m) (λ _, True).
Proof.
  intros w Hw. unfold call. destruct (m (heap w store)) as [r s].
  split; [|done]. by split.
Qed.

Lemma safe_Query_read n0 q : safe n0 (Query_read q) (λ _, True).
Proof. intros w Hw. split; [apply untouched_refl|done]. Qed.

Lemma safe_Query_write n0 q v :
  (n0 ≤ q)%nat → safe n0 (Query_write q v) (λ _, True).
Proof.
  intros Hq w Hw. split; [|done]. split; [done|].
  intros q' Hq'. simpl. rewrite fn_lookup_insert_ne; [done|lia].
Qed.

Lemma safe_Query_copy n0 q :
  safe n0 (Query_copy q) (λ q', (n0 ≤ q')%nat).
Proof.
  intros w Hw. split.
  - split; simpl; [lia|].
    intros q' Hq'. rewrite fn_lookup_insert_ne; [done|lia].
  - intros q' w' [= <- <-]. done.
Qed.

Lemma safe_call_query n0 store query :
  safe n0 (call_query store query) (λ _, True).
Proof.
  unfold call_query.
  eapply safe_bind; [apply safe_Query_read|].
  intros q _. apply safe_call.
Qed.

Lemma safe_shard_query_update n0 shard_query cursor :
  (n0 ≤ shard_query)%nat →
  safe n0 (shard_query_update shard_query cursor) (λ _, True).
Proof.
  intros Hsq. unfold shard_query_update.
  eapply safe_bind; [apply safe_Query_read|]. intros q _.
  eapply safe_bind; [by apply safe_Query_write|]. intros _ _.
  simpl. destruct (limit q) as [l|]; [|by apply safe_ret].
  case_decide; [|by apply safe_ret].
  eapply safe_bind; [by apply safe_Query_write|]. intros _ _.
  by apply safe_ret.
Qed.

Lemma safe_shard_loop n0 shard_query stores :
  (n0 ≤ shard_query)%nat →
  safe n0 (shard_loop shard_query stores) (λ r, gen_fresh n0 r.2).
Proof.
  intros Hsq. induction stores as [|shard stores IH]; simpl.
  - by apply safe_ret.
  - eapply safe_bind; [apply safe_call_query|]. intros cursor _.
    destruct (items cursor) as [|item pending]; [|by apply safe_ret].
    eapply safe_bind; [by apply safe_shard_query_update|]. intros [] _.
    + by apply safe_ret.
    + apply IH.
Qed.

Lemma safe_Generator_next n0 g :
  gen_fresh n0 g →
  safe n0 (Generator_next g) (λ r, gen_fresh n0 r.2).
Proof.
  intros Hg. destruct g as [self query|shard_query cursor pending stores|]; simpl.
  - eapply safe_bind; [apply safe_Query_copy|].
    intros sq Hsq. by apply safe_shard_loop.
  - destruct pending as [|item pending]; [|by apply safe_ret].
    eapply safe_bind; [by apply safe_shard_query_update|]. intros [] _.
    + by apply safe_ret.
    + by apply safe_shard_loop.
  - by apply safe_ret.
Qed.

Lemma safe_Generator_take n0 fuel g :
  gen_fresh n0 g →
  safe n0 (Generator_take fuel g) (λ r, gen_fresh n0 r.2).
Proof.
  revert g. induction fuel as [|fuel IH]; intros g Hg; simpl.
  - by apply safe_ret.
  - eapply safe_bind; [by apply safe_Generator_next|].
    intros [[item|] g'] Hg'; simpl in Hg'.
    + eapply safe_bind; [by apply IH|].
      intros r Hr. by apply safe_ret.
    + by apply safe_ret.
Qed.

Lemma safe_shard_loop_list n0 shard_query stores :
  (n0 ≤ shard_query)%nat →
  safe n0 (shard_loop_list shard_query stores) (λ _, True).
Proof.
  intros Hsq. induction stores as [|shard stores IH]; simpl.
  - by apply safe_ret.
  - eapply safe_bind; [apply safe_call_query|]. intros cursor _.
    eapply safe_bind; [by apply safe_shard_query_update|]. intros [] _.
    + by apply safe_ret.
    + eapply safe_bind; [apply IH|]. intros tail _. by apply safe_ret.
Qed.

Lemma safe_Generator_list n0 g :
  gen_fresh n0 g → safe n0 (Generator_list g) (λ _, True).
Proof.
  intros Hg. destruct g as [self query|shard_query cursor pending stores|]; simpl.
  - eapply safe_bind; [apply safe_Query_copy|].
    intros sq Hsq. by apply safe_shard_loop_list.
  - eapply safe_bind; [by apply safe_shard_query_update|]. intros [] _.
    + by apply safe_ret.
    + eapply safe_bind; [by apply safe_shard_loop_list|].
      intros tail _. by apply safe_ret.
  - by apply safe_ret.
Qed.

Lemma safe_Cursor_apply_order n0 cursor :
  iterable_fresh n0 (_iterable cursor) →
  safe n0 (Cursor_apply_order cursor) (λ c, iterable_fresh n0 (_iterable c)).
Proof.
  intros Hc. unfold Cursor_apply_order.
  eapply safe_bind; [apply safe_Query_read|]. intros q _.
  destruct (order q) as [[|o os]|]; try by apply safe_ret.
  eapply safe_bind with (P := λ _, True).
  - destruct (_iterable cursor) as [g|l]; simpl.
    + by apply safe_Generator_list.
    + by apply safe_ret.
  - intros l _. by apply safe_ret.
Qed.

Lemma safe_ShardedDatastore_query n0 self query :
  safe n0 (ShardedDatastore_query self query)
    (λ c, iterable_fresh n0 (_iterable c)).
Proof. unfold ShardedDatastore_query. by apply safe_Cursor_apply_order. Qed.

Lemma safe_KeyTransformDatastore_query n0 self query :
  safe n0 (KeyTransformDatastore_query self query) (λ _, True).
Proof.
  unfold KeyTransformDatastore_query.
  eapply safe_bind; [apply safe_Query_copy|]. intros clone Hclone.
  eapply safe_bind; [apply safe_Query_read|]. intros q _.
  eapply safe_bind with (P := λ _, True).
  { unfold KeyTransformDatastore__transform.
    destruct (keytransform self) as [f|].
    - eapply safe_weaken; [apply safe_lift|done].
    - by apply safe_ret. }
  intros key _.
  eapply safe_bind; [by apply safe_Query_write|]. intros _ _.
  apply safe_call_query.
Qed.

(** C8. [KeyTransformDatastore.query] and [ShardedDatastore.query] work
    on a copy: after the call, and however far the generator of the
    sharded query is then consumed, the caller's [Query] object is as it
    was before the call. *)
Theorem query_keeps_callers_Query (query : qref) (w : World) :
  (query < qnext w)%nat →
  (∀ self : KeyTransformDatastore,
     queries (KeyTransformDatastore_query self query w).2 query
     = queries w query)
  ∧ (∀ self : ShardedDatastore,
       queries (ShardedDatastore_query self query w).2 query = queries w query)
  ∧ (∀ (self : ShardedDatastore) (fuel : nat),
       queries
         (Generator_take fuel
            (ShardedDatastore_shard_query_generator self query) w).2 query
       = queries w query)
  ∧ (∀ (self : ShardedDatastore) cursor w1 g (fuel : nat),
       ShardedDatastore_query self query w = (Ok cursor, w1) →
       _iterable cursor = FromGenerator g →
       queries (Generator_take fuel g w1).2 query = queries w query).
Proof.
  intros Hq. split_and!.
  - intros self.
    destruct (safe_KeyTransformDatastore_query (qnext w) self query w)
      as [[_ Hu] _]; [done|]. by apply Hu.
  - intros self.
    destruct (safe_ShardedDatastore_query (qnext w) self query w)
      as [[_ Hu] _]; [done|]. by apply Hu.
  - intros self fuel.
    destruct (safe_Generator_take (qnext w) fuel (GenStart self query) I w)
      as [[_ Hu] _]; [done|]. by apply Hu.
  - intros self cursor w1 g fuel Hquery Hg.
    destruct (safe_ShardedDatastore_query (qnext w) self query w)
      as [[Hn Hu] Hfresh]; [done|].
    rewrite Hquery in Hn, Hu. simpl in Hn, Hu.
    specialize (Hfresh cursor w1 Hquery). rewrite Hg in Hfresh. simpl in Hfresh.
    destruct (safe_Generator_take (qnext w) fuel g Hfresh w1)
      as [[_ Hu1] _]; [done|].
    rewrite Hu1 by done. by apply Hu.
Qed.

(** ** ShardedDatastore.query *)

Lemma result_eta {A : Type} (r : result A * World) :
  match r with
  | (Ok a, w) => (Ok a, w)
  | (Raise e, w) => (Raise e, w)
  end = r.
Proof. by destruct r as [[a|e] w]. Qed.

(** [shard_loop_list] is [shard_loop] followed by [list] of the generator
    it suspends in. *)
Lemma shard_loop_list_next shard_query stores w :
  shard_loop_list shard_query stores w
  = match shard_loop shard_query stores w with
    | (Ok (Some item, g), w') => cons_result item (Generator_list g w')
    | (Ok (None, _), w') => (Ok [], w')
    | (Raise e, w') => (Raise e, w')
    end.
Proof.
  revert w. induction stores as [|shard stores IH]; intros w; [reflexivity|].
  simpl.
  destruct (call_query shard shard_query w) as [[cursor|e] w1] eqn:Hcall.
  2:{ by rewrite !(bind_Raise _ _ _ _ _ Hcall). }
  rewrite !(bind_Ok _ _ _ _ _ Hcall).
  destruct (shard_query_update shard_query cursor w1) as [[done|e] w2] eqn:Hupd.
  - rewrite (bind_Ok _ _ _ _ _ Hupd).
    destruct (items cursor) as [|item pending] eqn:Hitems.
    + rewrite (bind_Ok _ _ _ _ _ Hupd).
      destruct done; [reflexivity|].
      rewrite <- IH. unfold bind, ret. simpl. apply result_eta.
    + rewrite ret_eq. simpl. rewrite (bind_Ok _ _ _ _ _ Hupd).
      destruct done; [reflexivity|].
      unfold bind, ret, cons_result.
      by destruct (shard_loop_list shard_query stores w2) as [[tail|e] w3].
  - rewrite (bind_Raise _ _ _ _ _ Hupd).
    destruct (items cursor) as [|item pending] eqn:Hitems.
    + by rewrite (bind_Raise _ _ _ _ _ Hupd).
    + rewrite ret_eq. simpl. by rewrite (bind_Raise _ _ _ _ _ Hupd).
Qed.

(** [list(generator)] is [next] until [StopIteration]. *)
Lemma Generator_list_next g w :
  Generator_list g w
  = match Generator_next g w with
    | (Ok (Some item, g'), w') => cons_result item (Generator_list g' w')
    | (Ok (None, _), w') => (Ok [], w')
    | (Raise e, w') => (Raise e, w')
    end.
Proof.
  destruct g as [self query|shard_query cursor pending stores|]; simpl;
    [| |reflexivity].
  - destruct (Query_copy query w) as [[sq|e] w1] eqn:Hcopy.
    + rewrite !(bind_Ok _ _ _ _ _ Hcopy). apply shard_loop_list_next.
    + by rewrite !(bind_Raise _ _ _ _ _ Hcopy).
  - destruct (shard_query_update shard_query cursor w) as [[done|e] w1] eqn:Hupd.
    + rewrite (bind_Ok _ _ _ _ _ Hupd).
      destruct pending as [|item pending].
      * rewrite (bind_Ok _ _ _ _ _ Hupd).
        destruct done; [reflexivity|].
        rewrite <- shard_loop_list_next. unfold bind, ret. simpl.
        apply result_eta.
      * rewrite ret_eq. simpl. rewrite (bind_Ok _ _ _ _ _ Hupd).
        destruct done; [reflexivity|].
        unfold bind, ret, cons_result.
        by destruct (shard_loop_list shard_query stores w1) as [[tail|e] w2].
    + rewrite (bind_Raise _ _ _ _ _ Hupd).
      destruct pending as [|item pending].
      * by rewrite (bind_Raise _ _ _ _ _ Hupd).
      * rewrite ret_eq. simpl. by rewrite (bind_Raise _ _ _ _ _ Hupd).
Qed.

(** Enough calls of [next] give what [list] gives: one call per item and
    one for [StopIteration]. *)
Lemma Generator_take_list g w l w' :
  Generator_list g w = (Ok l, w') →
  ∃ g', Generator_take (Datatypes.S (length l)) g w = (Ok (l, g'), w').
Proof.
  revert g w. induction l as [|item l IH]; intros g w Hlist.
  - rewrite Generator_list_next in Hlist.
    destruct (Generator_next g w) as [[[[item|] g']|e] w1] eqn:Hnext;
      [|injection Hlist as <-|done].
    + unfold cons_result in Hlist.
      by destruct (Generator_list g' w1) as [[l'|e] w2].
    + exists g'. simpl. by rewrite (bind_Ok _ _ _ _ _ Hnext).
  - rewrite Generator_list_next in Hlist.
    destruct (Generator_next g w) as [[[[item'|] g']|e] w1] eqn:Hnext;
      [|done|done].
    unfold cons_result in Hlist.
    destruct (Generator_list g' w1) as [[l'|e] w2] eqn:Hlist'; [|done].
    injection Hlist as -> -> ->.
    destruct (IH g' w1 Hlist') as (g'' & Htake).
    exists g''.
    change (Generator_take (Datatypes.S (length (item :: l))) g w)
      with (bind (Generator_next g)
              (λ r, match r with
                    | (None, g') => ret ([], g')
                    | (Some item, g') =>
                        bind (Generator_take (Datatypes.S (length l)) g')
                          (λ r', ret (item :: r'.1, r'.2))
                    end) w).
    rewrite (bind_Ok _ _ _ _ _ Hnext).
    by rewrite (bind_Ok _ _ _ _ _ Htake).
Qed.

(** C2. [ShardedDatastore.query] materialises and sorts the merged
    sequence only when the query carries an order directive: without one
    the cursor holds the generator, not yet started, and no shard has been
    queried; with one it holds the sorted list of all the generator's
    items. *)
Theorem ShardedDatastore_query_sorts_on_order (self : ShardedDatastore)
    (query : qref) (w : World) :
  (has_order (queries w query) = false →
     ShardedDatastore_query self query w
     = (Ok (mkShardedCursor query
              (FromGenerator
                 (ShardedDatastore_shard_query_generator self query))), w))
  ∧ (∀ os, order (queries w query) = Some os → os ≠ [] →
       ShardedDatastore_query self query w
       = match Generator_list
                 (ShardedDatastore_shard_query_generator self query) w with
         | (Ok l, w') =>
             (Ok (mkShardedCursor query (FromList (Order_sorted os l))), w')
         | (Raise e, w') => (Raise e, w')
         end).
Proof.
  unfold ShardedDatastore_query, ShardedDatastore_shard_query_generator,
    Cursor_apply_order, has_order.
  unfold bind at 1 3. unfold Query_read. simpl.
  split.
  - intros Hno. by destruct (order (queries w query)) as [[|o os]|].
  - intros os Hos Hne. rewrite Hos.
    destruct os as [|o os]; [done|].
    unfold bind, ret.
    by destruct (Query_copy query w) as [[sq|e] w1].
Qed.

(** The effect of the update after a shard's cursor: the clone's offset is
    reduced by [skipped] and floored at 0; a limit is reduced by
    [returned] and floored at 0; the loop is left exactly when the limit
    was neither [None] nor 0 and is used up. *)
Lemma shard_query_update_spec shard_query cursor w :
  ∃ w',
    shard_query_update shard_query cursor w
    = (Ok (limit_used_up (queries w shard_query) cursor), w')
    ∧ queries w' shard_query
      = mkQuery (qkey (queries w shard_query))
          (Z.max (offset (queries w shard_query) - Z.of_nat (skipped cursor)) 0)
          ((λ l, Z.max (l - Z.of_nat (returned cursor)) 0)
             <$> limit (queries w shard_query))
          (order (queries w shard_query)) (filters (queries w shard_query))
    ∧ (∀ q, q ≠ shard_query → queries w' q = queries w q)
    ∧ heap w' = heap w ∧ qnext w' = qnext w ∧ calls w' = calls w.
Proof.
  unfold shard_query_update, limit_used_up, bind, Query_read, Query_write, ret.
  simpl.
  destruct (limit (queries w shard_query)) as [l|] eqn:Hl; simpl.
  - case_decide as Hl0.
    + eexists. split.
      { f_equal. f_equal. apply bool_decide_ext. lia. }
      simpl. split_and!; try done.
      * by rewrite fn_lookup_insert.
      * intros q Hq. by rewrite !fn_lookup_insert_ne.
    + eexists. split.
      { f_equal. f_equal. symmetry. apply bool_decide_eq_false.
        by intros [Hne _]. }
      simpl. split_and!; try done.
      * rewrite fn_lookup_insert. f_equal. f_equal. lia.
      * intros q Hq. by rewrite fn_lookup_insert_ne.
  - eexists. split; [reflexivity|].
    simpl. split_and!; try done.
    + by rewrite fn_lookup_insert.
    + intros q Hq. by rewrite fn_lookup_insert_ne.
Qed.

Lemma call_query_calls store query w :
  calls (call_query store query w).2
  = calls w ++ [EQuery store (queries w query)]
  ∧ queries (call_query store query w).2 = queries w
  ∧ qnext (call_query store query w).2 = qnext w.
Proof.
  unfold call_query, bind, Query_read, call.
  by destruct (ds_query (queries w query) (heap w store)) as [r s].
Qed.

(** The shards are visited in the order of the collection: the calls the
    loop makes are [query] calls on a prefix of the stores. *)
Lemma shard_loop_list_visits shard_query stores w :
  ∃ es, calls (shard_loop_list shard_query stores w).2 = calls w ++ es
    ∧ Forall (λ e, ∃ store q, e = EQuery store q) es
    ∧ visited es `prefix_of` stores.
Proof.
  revert w. induction stores as [|shard stores IH]; intros w.
  - exists []. simpl. rewrite app_nil_r. split_and!; [done|done|].
    apply prefix_nil.
  - destruct (call_query_calls shard shard_query w) as (Hcalls1 & _ & _).
    simpl. unfold bind at 1.
    destruct (call_query shard shard_query w) as [[cursor|e] w1]; simpl in *.
    + destruct (shard_query_update_spec shard_query cursor w1)
        as (w2 & Hupd & _ & _ & _ & _ & Hcalls2).
      rewrite (bind_Ok _ _ _ _ _ Hupd).
      destruct (limit_used_up (queries w1 shard_query) cursor).
      * exists [EQuery shard (queries w shard_query)]. simpl.
        rewrite Hcalls2, Hcalls1. split_and!; [done| |].
        -- constructor; [eauto|done].
        -- apply prefix_cons, prefix_nil.
      * destruct (IH w2) as (es & Hes & Hall & Hpre).
        exists (EQuery shard (queries w shard_query) :: es). split_and!.
        -- unfold bind.
           destruct (shard_loop_list shard_query stores w2) as [[tail|e] w3];
             simpl in *; rewrite Hes, Hcalls2, Hcalls1;
             by rewrite <- app_assoc.
        -- constructor; [eauto|done].
        -- simpl. by apply prefix_cons.
    + exists [EQuery shard (queries w shard_query)].
      split_and!; [done| |].
      * constructor; [eauto|done].
      * apply prefix_cons, prefix_nil.
Qed.

(** A limit that is not 0 and is used up by a shard ends the loop: no
    further shard is queried. *)
Lemma shard_loop_list_stops shard_query shard stores w cursor w1 l :
  call_query shard shard_query w = (Ok cursor, w1) →
  limit (queries w shard_query) = Some l →
  l ≠ 0 →
  l ≤ Z.of_nat (returned cursor) →
  ∃ w', shard_loop_list shard_query (shard :: stores) w = (Ok (items cursor), w')
    ∧ calls w' = calls w ++ [EQuery shard (queries w shard_query)]
    ∧ limit (queries w' shard_query) = Some 0.
Proof.
  intros Hcall Hl Hl0 Hle.
  destruct (call_query_calls shard shard_query w) as (Hcalls1 & Hq1 & _).
  rewrite Hcall in Hcalls1, Hq1. simpl in Hcalls1, Hq1.
  destruct (shard_query_update_spec shard_query cursor w1)
    as (w2 & Hupd & Hq2 & _ & _ & _ & Hcalls2).
  rewrite Hq1 in Hupd, Hq2.
  unfold limit_used_up in Hupd. rewrite Hl in Hupd.
  rewrite bool_decide_eq_true_2 in Hupd by done.
  exists w2. split_and!.
  - simpl. rewrite (bind_Ok _ _ _ _ _ Hcall).
    by rewrite (bind_Ok _ _ _ _ _ Hupd).
  - by rewrite Hcalls2.
  - rewrite Hq2, Hl. simpl. f_equal. lia.
Qed.

(** With a limit of 0 the update never leaves the loop: when the
    children's [query] does not raise, every shard is queried. *)
Lemma shard_loop_list_limit_zero shard_query stores w :
  (∀ q s, ∃ c s', ds_query q s = (Ok c, s')) →
  limit (queries w shard_query) = Some 0 →
  ∃ l w' es, shard_loop_list shard_query stores w = (Ok l, w')
    ∧ calls w' = calls w ++ es
    ∧ visited es = stores
    ∧ limit (queries w' shard_query) = Some 0.
Proof.
  intros Htotal. revert w.
  induction stores as [|shard stores IH]; intros w Hl.
  - exists [], w, []. by rewrite app_nil_r.
  - destruct (call_query_calls shard shard_query w) as (Hcalls1 & Hq1 & _).
    assert (∃ cursor w1, call_query shard shard_query w = (Ok cursor, w1))
      as (cursor & w1 & Hcall).
    { unfold call_query, bind, Query_read, call.
      destruct (Htotal (queries w shard_query) (heap w shard))
        as (c & s' & ->). eauto. }
    rewrite Hcall in Hcalls1, Hq1. simpl in Hcalls1, Hq1.
    destruct (shard_query_update_spec shard_query cursor w1)
      as (w2 & Hupd & Hq2 & _ & _ & _ & Hcalls2).
    rewrite Hq1 in Hupd, Hq2.
    unfold limit_used_up in Hupd. rewrite Hl in Hupd.
    rewrite bool_decide_eq_false_2 in Hupd by (by intros [Hne _]).
    destruct (IH w2) as (tail & w' & es & Hloop & Hcalls & Hvis & Hl').
    { rewrite Hq2, Hl. simpl. f_equal. lia. }
    exists (items cursor ++ tail), w',
      (EQuery shard (queries w shard_query) :: es).
    split_and!.
    + simpl. rewrite (bind_Ok _ _ _ _ _ Hcall).
      rewrite (bind_Ok _ _ _ _ _ Hupd).
      by rewrite (bind_Ok _ _ _ _ _ Hloop).
    + rewrite Hcalls, Hcalls2, Hcalls1. by rewrite <- app_assoc.
    + simpl. by rewrite Hvis.
    + done.
Qed.

(** * Further properties *)

(** ** DictDatastore *)

Lemma Dict_delete_view_ne key self key' :
  key ≠ key' →
  Dict_view (DictDatastore_delete key self) key' = Dict_view self key'.
Proof.
  intros Hne.
  unfold DictDatastore_delete, DictDatastore__collection, Dict_view.
  destruct (decide (key_str (key_path key) = key_str (key_path key'))) as [e|n].
  - rewrite <- e.
    destruct (_items self !! key_str (key_path key)) as [c|] eqn:E; simpl.
    + destruct (c !! key) as [v|] eqn:Ek; simpl; [|by rewrite E].
      rewrite lookup_insert_eq.
      case_decide as Hsize; simpl.
      * rewrite lookup_delete_eq. simpl.
        apply map_size_empty_inv in Hsize.
        assert (Hk' : base.delete key c !! key' = None) by by rewrite Hsize.
        by rewrite lookup_delete_ne in Hk'.
      * rewrite lookup_insert_eq. simpl. by rewrite lookup_delete_ne.
    + rewrite lookup_empty. simpl. rewrite lookup_insert_eq. simpl.
      by rewrite lookup_empty.
  - destruct (_items self !! key_str (key_path key)) as [c|] eqn:E; simpl.
    + destruct (c !! key) as [v|] eqn:Ek; simpl; [|done].
      rewrite lookup_insert_eq.
      case_decide; simpl.
      * by rewrite lookup_delete_ne, lookup_insert_ne.
      * by rewrite !lookup_insert_ne.
    + rewrite lookup_empty. simpl. by rewrite lookup_insert_ne.
Qed.

Lemma Dict_delete_view_missing key self key' :
  Dict_view self key = None →
  Dict_view (DictDatastore_delete key self) key' = Dict_view self key'.
Proof.
  intros Hmiss. destruct (decide (key = key')) as [<-|Hne].
  - by rewrite Dict_delete_view.
  - by apply Dict_delete_view_ne.
Qed.

(** X1. [delete(k)] removes [k] and only [k]: afterwards [get(k)] is
    [None] and [get] of every other key gives what it gave before, in the
    same collection or another. *)
Theorem DictDatastore_delete_get (self : DictDatastore) (k : Key) :
  (DictDatastore_get k (DictDatastore_delete k self)).1 = None
  ∧ ∀ k', k' ≠ k →
      (DictDatastore_get k' (DictDatastore_delete k self)).1
      = (DictDatastore_get k' self).1.
Proof.
  split.
  - rewrite Dict_get_view. apply Dict_delete_view.
  - intros k' Hne. rewrite !Dict_get_view. by apply Dict_delete_view_ne.
Qed.

(** X2. [put(k, v)], for a value or for [None], changes [get] at no other
    key. *)
Theorem DictDatastore_put_get_other (self : DictDatastore) (k k' : Key)
    (value : option Value) :
  k' ≠ k →
  (DictDatastore_get k' (DictDatastore_put k value self)).1
  = (DictDatastore_get k' self).1.
Proof.
  intros Hne. rewrite !Dict_get_view.
  destruct value as [v|]; simpl.
  - by apply Dict_put_view_ne.
  - by apply Dict_delete_view_ne.
Qed.

Lemma DictDatastore_contains_get_eq (self : DictDatastore) (k : Key) :
  DictDatastore_contains k self
  = (bool_decide (is_Some (DictDatastore_get k self).1),
     (DictDatastore_get k self).2).
Proof.
  unfold DictDatastore_contains, DictDatastore_get.
  by destruct (DictDatastore__collection k self) as [c self'].
Qed.

(** [contains], as [DictDatastore] overrides it, is the default
    [get(key) is not None], and leaves the store in the state [get] leaves
    it in. *)
Theorem DictDatastore_contains_get (self : DictDatastore) (k : Key) :
  DictDatastore_contains k self
  = (bool_decide (is_Some (DictDatastore_get k self).1),
     (DictDatastore_get k self).2).
Proof.
  unfold DictDatastore_contains, DictDatastore_get.
  by destruct (DictDatastore__collection k self) as [c self'].
Qed.

Lemma Dict_wf_get key self : Dict_wf self → Dict_wf (DictDatastore_get key self).2.
Proof.
  intros Hwf name c k.
  unfold DictDatastore_get, DictDatastore__collection.
  destruct (_items self !! key_str (key_path key)) as [c0|] eqn:E; simpl;
    [apply Hwf|].
  destruct (decide (key_str (key_path key) = name)) as [<-|Hne].
  - rewrite lookup_insert_eq. intros [= <-] [x Hx]. by rewrite lookup_empty in Hx.
  - rewrite lookup_insert_ne by done. apply Hwf.
Qed.

Lemma Dict_wf_put key v self :
  Dict_wf self → Dict_wf (DictDatastore_put key (Some v) self).
Proof.
  intros Hwf name c k.
  unfold DictDatastore_put, DictDatastore__collection.
  destruct (_items self !! key_str (key_path key)) as [c0|] eqn:E; simpl.
  - destruct (decide (key_str (key_path key) = name)) as [<-|Hne].
    + rewrite lookup_insert_eq. intros [= <-] Hk.
      destruct (decide (key = k)) as [->|Hkk]; [done|].
      rewrite lookup_insert_ne in Hk by done. by apply (Hwf _ c0).
    + rewrite lookup_insert_ne by done. apply Hwf.
  - destruct (decide (key_str (key_path key) = name)) as [<-|Hne].
    + rewrite lookup_insert_eq. intros [= <-] Hk.
      destruct (decide (key = k)) as [->|Hkk]; [done|].
      rewrite lookup_insert_ne, lookup_empty in Hk by done.
      by destruct Hk.
    + rewrite !lookup_insert_ne by done. apply Hwf.
Qed.

Lemma Dict_wf_delete key self :
  Dict_wf self → Dict_wf (DictDatastore_delete key self).
Proof.
  intros Hwf name c k.
  unfold DictDatastore_delete, DictDatastore__collection.
  destruct (_items self !! key_str (key_path key)) as [c0|] eqn:E; simpl.
  - destruct (c0 !! key) as [v|] eqn:Ek; simpl; [|apply Hwf].
    rewrite lookup_insert_eq.
    assert (Hdel : ∀ k, is_Some (base.delete key c0 !! k) →
                        key_str (key_path k) = key_str (key_path key)).
    { intros k0 Hk0. apply (Hwf _ c0); [done|].
      destruct (decide (key = k0)) as [->|Hkk].
      - rewrite lookup_delete_eq in Hk0. by destruct Hk0.
      - by rewrite lookup_delete_ne in Hk0. }
    case_decide; simpl.
    + destruct (decide (key_str (key_path key) = name)) as [<-|Hne].
      * by rewrite lookup_delete_eq.
      * rewrite lookup_delete_ne, lookup_insert_ne by done. apply Hwf.
    + destruct (decide (key_str (key_path key) = name)) as [<-|Hne].
      * rewrite lookup_insert_eq. intros [= <-]. apply Hdel.
      * rewrite lookup_insert_ne by done. apply Hwf.
  - rewrite lookup_empty. simpl.
    destruct (decide (key_str (key_path key) = name)) as [<-|Hne].
    + rewrite lookup_insert_eq. intros [= <-] [x Hx]. by rewrite lookup_empty in Hx.
    + rewrite lookup_insert_ne by done. apply Hwf.
Qed.

(** X3. A collection holds only keys whose [path] names it: this is so in
    a new, empty [DictDatastore], and [get], [put] and [delete] keep it
    so. *)
Theorem DictDatastore_collections_own_keys :
  Dict_wf (mkDict ∅)
  ∧ ∀ self key value,
      Dict_wf self →
      Dict_wf (DictDatastore_get key self).2
      ∧ Dict_wf (DictDatastore_put key value self)
      ∧ Dict_wf (DictDatastore_delete key self).
Proof.
  split.
  - intros name c k Hc. simpl in Hc. by rewrite lookup_empty in Hc.
  - intros self key value Hwf. split_and!.
    + by apply Dict_wf_get.
    + destruct value as [v|]; simpl; [by apply Dict_wf_put|by apply Dict_wf_delete].
    + by apply Dict_wf_delete.
Qed.

(** X4. A [query] is applied to the values of the collection named
    [str(query.key)]: a value put at a key whose [path] has that name is
    among them, and a [put], of a value or of [None], at a key of another
    collection does not change the result of the query. *)
Theorem DictDatastore_query_put (self : DictDatastore) (query : Query)
    (k : Key) :
  (∀ v, key_str (qkey query) = key_str (key_path k) →
     ∃ values, DictDatastore_query query (DictDatastore_put k (Some v) self)
               = Query_call query values
       ∧ v ∈ values)
  ∧ (∀ value, key_str (qkey query) ≠ key_str (key_path k) →
       DictDatastore_query query (DictDatastore_put k value self)
       = DictDatastore_query query self).
Proof.
  split.
  - intros v Hname.
    unfold DictDatastore_query, DictDatastore_put, DictDatastore__collection.
    rewrite Hname.
    destruct (_items self !! key_str (key_path k)) as [c|] eqn:E; simpl;
      rewrite lookup_insert_eq; eexists; (split; [done|]);
      apply list_elem_of_fmap; exists (k, v);
      (split; [done|]); apply elem_of_map_to_list, lookup_insert_eq.
  - intros value Hname.
    unfold DictDatastore_query.
    assert (Hitems : _items (DictDatastore_put k value self)
                       !! key_str (qkey query)
                     = _items self !! key_str (qkey query)).
    { destruct value as [v|]; simpl.
      - unfold DictDatastore_put, DictDatastore__collection.
        destruct (_items self !! key_str (key_path k)) as [c|] eqn:E; simpl;
          by rewrite !lookup_insert_ne.
      - unfold DictDatastore_delete, DictDatastore__collection.
        destruct (_items self !! key_str (key_path k)) as [c|] eqn:E; simpl.
        + destruct (c !! k) as [v|] eqn:Ek; simpl; [|done].
          rewrite lookup_insert_eq.
          case_decide; simpl.
          * by rewrite lookup_delete_ne, lookup_insert_ne.
          * by rewrite !lookup_insert_ne.
        + rewrite lookup_empty. simpl. by rewrite lookup_insert_ne. }
    by rewrite Hitems.
Qed.

Lemma items_len_insert (m : gmap string (gmap Key Value)) i c :
  (DictDatastore_len (mkDict (<[i := c]> m))
   + from_option size 0 (m !! i)
   = size c + DictDatastore_len (mkDict m))%nat.
Proof.
  unfold DictDatastore_len. simpl.
  destruct (m !! i) as [c0|] eqn:E; simpl.
  - rewrite <- (insert_delete_id m i c0) at 2 by done.
    rewrite <- (insert_delete_eq m).
    rewrite !map_to_list_insert by apply lookup_delete_eq.
    simpl. lia.
  - rewrite map_to_list_insert by done. simpl. lia.
Qed.

Lemma items_len_delete (m : gmap string (gmap Key Value)) i :
  (DictDatastore_len (mkDict (base.delete i m)) + from_option size 0 (m !! i)
   = DictDatastore_len (mkDict m))%nat.
Proof.
  unfold DictDatastore_len. simpl.
  destruct (m !! i) as [c0|] eqn:E; simpl.
  - rewrite <- (insert_delete_id m i c0) at 2 by done.
    rewrite map_to_list_insert by apply lookup_delete_eq.
    simpl. lia.
  - rewrite delete_id by done. lia.
Qed.

Lemma Dict_len_get key self :
  DictDatastore_len (DictDatastore_get key self).2 = DictDatastore_len self.
Proof.
  unfold DictDatastore_get, DictDatastore__collection.
  destruct self as [m]. simpl.
  destruct (m !! key_str (key_path key)) as [c|] eqn:E; simpl; [done|].
  pose proof (items_len_insert m (key_str (key_path key)) ∅) as Hlen.
  rewrite E, map_size_empty in Hlen. simpl in Hlen. lia.
Qed.

Lemma Dict_len_put key v self :
  (DictDatastore_len (DictDatastore_put key (Some v) self)
   = DictDatastore_len self
     + match Dict_view self key with Some _ => 0 | None => 1 end)%nat.
Proof.
  unfold DictDatastore_put, DictDatastore__collection, Dict_view.
  destruct self as [m]. simpl.
  destruct (m !! key_str (key_path key)) as [c|] eqn:E; simpl.
  - pose proof (items_len_insert m (key_str (key_path key)) (<[key:=v]> c))
      as Hlen.
    rewrite E in Hlen. simpl in Hlen.
    rewrite map_size_insert in Hlen.
    destruct (c !! key); simpl in *; lia.
  - pose proof (items_len_insert m (key_str (key_path key)) ∅) as Hlen0.
    rewrite E, map_size_empty in Hlen0. simpl in Hlen0.
    pose proof (items_len_insert (<[key_str (key_path key):=∅]> m)
                  (key_str (key_path key)) (<[key:=v]> ∅)) as Hlen.
    rewrite lookup_insert_eq in Hlen. simpl in Hlen.
    rewrite map_size_insert, lookup_empty, map_size_empty in Hlen.
    simpl in *. lia.
Qed.

Lemma Dict_len_delete key self :
  (DictDatastore_len (DictDatastore_delete key self)
   + match Dict_view self key with Some _ => 1 | None => 0 end
   = DictDatastore_len self)%nat.
Proof.
  unfold DictDatastore_delete, DictDatastore__collection, Dict_view.
  destruct self as [m]. simpl.
  destruct (m !! key_str (key_path key)) as [c|] eqn:E; simpl.
  - destruct (c !! key) as [v|] eqn:Ek; simpl; [|lia].
    rewrite lookup_insert_eq.
    pose proof (items_len_insert m (key_str (key_path key))
                  (base.delete key c)) as Hlen.
    rewrite E in Hlen. simpl in Hlen.
    pose proof (map_size_delete key c) as Hsize. rewrite Ek in Hsize.
    simpl in Hsize.
    assert (Hpos : (size c ≠ 0)%nat).
    { apply map_size_ne_0_lookup. eauto. }
    case_decide as Hempty; simpl.
    + pose proof (items_len_delete
                    (<[key_str (key_path key):=base.delete key c]> m)
                    (key_str (key_path key))) as Hdel.
      rewrite lookup_insert_eq in Hdel. simpl in Hdel. lia.
    + lia.
  - rewrite lookup_empty. simpl.
    pose proof (items_len_insert m (key_str (key_path key)) ∅) as Hlen.
    rewrite E, map_size_empty in Hlen. simpl in Hlen. lia.
Qed.

(** X5. [len] counts the keys held: [put] of a value adds one when the
    key was absent and none when it was present, [delete] takes one away
    when the key was present and none when it was absent, and [get]
    changes nothing. *)
Theorem DictDatastore_len_counts (self : DictDatastore) (k : Key) (v : Value) :
  DictDatastore_len (DictDatastore_get k self).2 = DictDatastore_len self
  ∧ ((DictDatastore_get k self).1 = None →
       DictDatastore_len (DictDatastore_put k (Some v) self)
       = Datatypes.S (DictDatastore_len self)
       ∧ DictDatastore_len (DictDatastore_delete k self)
         = DictDatastore_len self)
  ∧ ((DictDatastore_get k self).1 ≠ None →
       DictDatastore_len (DictDatastore_put k (Some v) self)
       = DictDatastore_len self
       ∧ Datatypes.S (DictDatastore_len (DictDatastore_delete k self))
         = DictDatastore_len self).
Proof.
  rewrite Dict_get_view.
  pose proof (Dict_len_put k v self) as Hput.
  pose proof (Dict_len_delete k self) as Hdel.
  split_and!.
  - apply Dict_len_get.
  - intros Hnone. rewrite Hnone in Hput, Hdel. lia.
  - intros Hsome. destruct (Dict_view self k); [lia|done].
Qed.

(** X6. [delete] of a key that is not held is not an error and changes no
    [get] and not the [len]; the state itself can change, as the empty
    collection that the lookup made stays: on a new store, [delete] leaves
    one (empty) collection behind. *)
Theorem DictDatastore_delete_missing (self : DictDatastore) (k : Key) :
  ((DictDatastore_get k self).1 = None →
     (∀ k', (DictDatastore_get k' (DictDatastore_delete k self)).1
            = (DictDatastore_get k' self).1)
     ∧ DictDatastore_len (DictDatastore_delete k self) = DictDatastore_len self)
  ∧ _items (DictDatastore_delete k (mkDict ∅))
    = {[ key_str (key_path k) := ∅ ]}.
Proof.
  split.
  - rewrite Dict_get_view. intros Hnone. split.
    + intros k'. rewrite !Dict_get_view. by apply Dict_delete_view_missing.
    + pose proof (Dict_len_delete k self) as Hdel.
      rewrite Hnone in Hdel. lia.
  - unfold DictDatastore_delete, DictDatastore__collection. simpl.
    rewrite lookup_empty. simpl. by rewrite lookup_empty.
Qed.

(** ** NestedPathDatastore.nestKey *)

Lemma string_append_length (s1 s2 : string) :
  String.length (s1 +:+ s2) = (String.length s1 + String.length s2)%nat.
Proof. induction s1 as [|c s1 IH]; simpl; [done|by rewrite IH]. Qed.

Lemma str_repeat_length (s : string) (n : nat) :
  String.length (str_repeat s n) = (n * String.length s)%nat.
Proof.
  induction n as [|n IH]; simpl; [done|].
  by rewrite string_append_length, IH.
Qed.

Lemma substring_length (n m : nat) (s : string) :
  String.length (substring n m s) = Nat.min m (String.length s - n).
Proof.
  revert n m. induction s as [|c s IH]; intros n m.
  - rewrite substring_empty. simpl. lia.
  - destruct n as [|n]; simpl.
    + destruct m as [|m]; simpl; [done|].
      rewrite IH. lia.
    + apply IH.
Qed.

(** A character of [s * m] is the character of [s] at the position taken
    modulo the length of [s]. *)
Lemma str_repeat_get (s : string) (m n : nat) :
  (n < m * String.length s)%nat →
  String.get n (str_repeat s m) = String.get (n mod String.length s) s.
Proof.
  revert n. induction m as [|m IH]; intros n Hn; [lia|].
  simpl in *.
  destruct (decide (n < String.length s)%nat) as [Hlt|Hge].
  - rewrite <- append_correct1 by done. by rewrite Nat.mod_small.
  - replace n with (n - String.length s + String.length s)%nat at 1 by lia.
    rewrite <- append_correct2. rewrite IH by lia.
    f_equal.
    replace n with (n - String.length s + 1 * String.length s)%nat at 2 by lia.
    rewrite Nat.Div0.mod_add. done.
Qed.

Lemma nestedPath_take_chunks (path : string) (depth len : Z) :
  0 < len → 0 ≤ depth →
  nestedPath path depth len
  = Ok (String.concat "/"
          (take (Z.to_nat depth) (chunks (Z.to_nat len) path))).
Proof.
  intros Hlen Hdepth. unfold nestedPath, xrange.
  case_decide; [lia|]. case_decide; [|lia].
  rewrite nestedPath_components by done.
  by rewrite list_slice_to_take.
Qed.

(** The first chunks of a string that is long enough are all full. *)
Lemma chunks_full (len depth : Z) (s : string) (i : nat) (c : string) :
  0 < len → 0 ≤ depth →
  depth * len ≤ Z.of_nat (String.length s) →
  take (Z.to_nat depth) (chunks (Z.to_nat len) s) !! i = Some c →
  (i < Z.to_nat depth)%nat
  ∧ c = substring (i * Z.to_nat len) (Z.to_nat len) s
  ∧ String.length c = Z.to_nat len.
Proof.
  intros Hlen Hdepth Hlong Hi.
  unfold chunks in Hi.
  rewrite (chunks_fuel_slices _ len) in Hi by (done || lia).
  apply lookup_take_Some in Hi as [Hi Hlt].
  change (map ?f ?l) with (f <$> l) in Hi.
  rewrite list_lookup_fmap in Hi.
  destruct (seq 0 _ !! i) as [i'|] eqn:Hseq; [|done].
  apply lookup_seq in Hseq as [-> _]. simpl in Hi. injection Hi as <-.
  split_and!; [done|done|].
  rewrite substring_length. nia.
Qed.

Lemma chunks_enough (len depth : Z) (s : string) :
  0 < len → 0 ≤ depth →
  depth * len ≤ Z.of_nat (String.length s) →
  length (take (Z.to_nat depth) (chunks (Z.to_nat len) s)) = Z.to_nat depth.
Proof.
  intros Hlen Hdepth Hlong.
  unfold chunks. rewrite (chunks_fuel_slices _ len) by (done || lia).
  rewrite length_take, length_map, length_seq.
  assert (depth ≤ (Z.of_nat (String.length s) + len - 1) / len).
  { apply Z.div_le_lower_bound; [done|]. nia. }
  lia.
Qed.

(** X7. [nestKey] raises [ZeroDivisionError] on a key whose name is
    empty.  On any other name, with a depth that is not negative and a
    positive length, the name is repeated so that the prefix has exactly
    [depth] components of exactly [length] characters each: character [j]
    of component [i] is the character of the name at position
    [i * length + j] modulo the length of the name. *)
Theorem NestedPathDatastore_nestKey_pads (nest_keyfn : Key → string)
    (self : NestedPathDatastore) (key : Key) :
  (nest_keyfn key = "" →
     NestedPathDatastore_nestKey nest_keyfn self key = Raise ZeroDivisionError)
  ∧ (nest_keyfn key ≠ "" → 0 ≤ nest_depth self → 0 < nest_length self →
       ∃ components,
         NestedPathDatastore_nestKey nest_keyfn self key
         = Ok (key_child (Key_of_string (String.concat "/" components)) key)
         ∧ length components = Z.to_nat (nest_depth self)
         ∧ ∀ i c, components !! i = Some c →
             String.length c = Z.to_nat (nest_length self)
             ∧ ∀ j, (j < Z.to_nat (nest_length self))%nat →
                 String.get j c
                 = String.get
                     ((i * Z.to_nat (nest_length self) + j)
                        mod String.length (nest_keyfn key))
                     (nest_keyfn key)).
Proof.
  unfold NestedPathDatastore_nestKey. split.
  - intros ->. simpl. repeat case_decide; done.
  - intros Hname Hdepth Hlen.
    set (name := nest_keyfn key) in *.
    set (d := nest_depth self) in *. set (l := nest_length self) in *.
    assert (Hn : (0 < String.length name)%nat).
    { destruct name; [done|simpl; lia]. }
    case_decide; [lia|].
    set (n := Z.of_nat (String.length name)).
    assert (Hmult : d * l < n * (1 + d * l / n)).
    { pose proof (Z.mul_succ_div_gt (d * l) n ltac:(lia)). lia. }
    assert (Hpos : 0 ≤ d * l / n) by (apply Z.div_pos; lia).
    set (padded := str_mul name (1 + d * l / n)).
    assert (Hpadded : String.length padded
                      = (Z.to_nat (1 + d * l / n) * String.length name)%nat).
    { apply str_repeat_length. }
    assert (Hlong : d * l ≤ Z.of_nat (String.length padded)).
    { rewrite Hpadded, Nat2Z.inj_mul, Z2Nat.id by lia. fold n. lia. }
    rewrite nestedPath_take_chunks by done.
    eexists. split; [done|]. split; [by apply chunks_enough|].
    intros i c Hi.
    destruct (chunks_full l d padded i c Hlen Hdepth Hlong Hi)
      as (Hid & -> & Hfull).
    split; [done|]. intros j Hj.
    rewrite substring_correct1 by done.
    unfold padded, str_mul.
    rewrite str_repeat_get.
    + f_equal. f_equal. lia.
    + fold (str_mul name (1 + d * l / n)). fold padded. rewrite <- Hpadded.
      nia.
Qed.

(** ** DatastoreCollection *)

(** X8. [datastore(index)] gives the store at [index] for an index from 0
    up to the number of stores, counts a negative index from the end, and
    raises [IndexError] for anything else, so for every index when there is
    no store. *)
Theorem DatastoreCollection_datastore_index (stores : list loc) (index : Z) :
  (0 ≤ index < Z.of_nat (length stores) →
     ∃ store, DatastoreCollection_datastore stores index = Ok store
       ∧ stores !! Z.to_nat index = Some store)
  ∧ (- Z.of_nat (length stores) ≤ index < 0 →
       ∃ store, DatastoreCollection_datastore stores index = Ok store
         ∧ stores !! Z.to_nat (Z.of_nat (length stores) + index) = Some store)
  ∧ (index < - Z.of_nat (length stores) ∨ Z.of_nat (length stores) ≤ index →
       DatastoreCollection_datastore stores index = Raise IndexError).
Proof.
  unfold DatastoreCollection_datastore. split_and!.
  - apply list_getitem_in_range.
  - intros Hi. unfold list_getitem.
    repeat case_decide; try lia.
    destruct (lookup_lt_is_Some_2 stores
                (Z.to_nat (Z.of_nat (length stores) + index)))
      as [x Hx]; [lia|].
    exists x. replace (index + Z.of_nat (length stores))
      with (Z.of_nat (length stores) + index) by lia.
    by rewrite Hx.
  - intros Hi. unfold list_getitem. repeat case_decide; (done || lia).
Qed.

(** X9. After [appendDatastore(store)] the new store is the last one
    ([datastore(-1)]), there is one store more, and every index that was
    valid gives the store it gave. *)
Theorem DatastoreCollection_appendDatastore_last (stores : list loc)
    (store : loc) :
  DatastoreCollection_datastore
    (DatastoreCollection_appendDatastore stores store) (-1) = Ok store
  ∧ length (DatastoreCollection_appendDatastore stores store)
    = Datatypes.S (length stores)
  ∧ ∀ index, 0 ≤ index < Z.of_nat (length stores) →
      DatastoreCollection_datastore
        (DatastoreCollection_appendDatastore stores store) index
      = DatastoreCollection_datastore stores index.
Proof.
  unfold DatastoreCollection_datastore, DatastoreCollection_appendDatastore.
  assert (Hlen : length (stores ++ [store]) = Datatypes.S (length stores)).
  { rewrite length_app. simpl. lia. }
  split_and!; [|done|].
  - unfold list_getitem. rewrite Hlen.
    repeat case_decide; try lia.
    replace (Z.to_nat (-1 + Z.of_nat (Datatypes.S (length stores))))
      with (length stores) by lia.
    rewrite lookup_app_r by lia. by rewrite Nat.sub_diag.
  - intros index Hi. unfold list_getitem. rewrite Hlen.
    repeat case_decide; try lia.
    by rewrite lookup_app_l by lia.
Qed.

Lemma list_remove_first_None (x : loc) (l : list loc) :
  list_remove_first x l = None ↔ x ∉ l.
Proof.
  induction l as [|y l IH]; simpl.
  - split; [intros _; apply not_elem_of_nil|done].
  - case_decide as Hy.
    + subst y. split; [done|]. intros Hnot. destruct Hnot. by left.
    + rewrite fmap_None, IH, not_elem_of_cons.
      split; [by intros Hnot; split|by intros [_ Hnot]].
Qed.

Lemma list_remove_first_Some (x : loc) (l l' : list loc) :
  list_remove_first x l = Some l' ↔
  ∃ l1 l2, l = l1 ++ (x :: l2) ∧ (x ∉ l1) ∧ l' = l1 ++ l2.
Proof.
  revert l'. induction l as [|y l IH]; intros l'; simpl.
  - split; [done|]. intros (l1 & l2 & Hl & _). by destruct l1.
  - case_decide as Hy.
    + subst y. split.
      * intros [= <-]. exists [], l. split_and!; [done|apply not_elem_of_nil|done].
      * intros (l1 & l2 & Hl & Hnot & ->).
        destruct l1 as [|z l1]; simpl in *.
        -- by injection Hl as ->.
        -- injection Hl as -> _. destruct Hnot. by left.
    + rewrite fmap_Some. split.
      * intros (l0 & Hrem & ->).
        apply IH in Hrem as (l1 & l2 & -> & Hnot & ->).
        exists (y :: l1), l2. split_and!; [done| |done].
        apply not_elem_of_cons. by split.
      * intros (l1 & l2 & Hl & Hnot & ->).
        destruct l1 as [|z l1]; simpl in *.
        -- injection Hl as -> _. done.
        -- injection Hl as -> ->.
           apply not_elem_of_cons in Hnot as [_ Hnot].
           exists (l1 ++ l2). split; [|done].
           apply IH. by exists l1, l2.
Qed.

(** X10. [removeDatastore(store)] raises [ValueError] when the store is
    not in the collection; otherwise it takes out the first occurrence of
    the store and keeps every other store, later occurrences of the same
    one included, in order. *)
Theorem DatastoreCollection_removeDatastore_first (stores : list loc)
    (store : loc) :
  (store ∉ stores →
     DatastoreCollection_removeDatastore stores store = Raise ValueError)
  ∧ (store ∈ stores →
       ∃ l1 l2, stores = l1 ++ (store :: l2) ∧ (store ∉ l1)
         ∧ DatastoreCollection_removeDatastore stores store = Ok (l1 ++ l2)).
Proof.
  unfold DatastoreCollection_removeDatastore. split.
  - intros Hnot. apply list_remove_first_None in Hnot. by rewrite Hnot.
  - intros Hin.
    destruct (list_remove_first store stores) as [l'|] eqn:Hrem.
    + apply list_remove_first_Some in Hrem as (l1 & l2 & -> & Hnot & ->).
      by exists l1, l2.
    + by apply list_remove_first_None in Hrem.
Qed.


(** ** KeyTransformDatastore *)

(** X12. When the key transform raises on a key, [get], [put], [delete]
    and [contains] raise the same exception and the child is not called;
    [query] raises it too, after cloning the query and before calling the
    child. *)
Theorem KeyTransformDatastore_transform_raises (self : KeyTransformDatastore)
    (key : Key) (e : exn) :
  (∀ w, KeyTransformDatastore__transform self key w = (Raise e, w)) →
  (∀ value w,
     KeyTransformDatastore_get self key w = (Raise e, w)
     ∧ KeyTransformDatastore_put self key value w = (Raise e, w)
     ∧ KeyTransformDatastore_delete self key w = (Raise e, w)
     ∧ KeyTransformDatastore_contains self key w = (Raise e, w))
  ∧ (∀ query w, qkey (queries w query) = key →
       ∃ w', KeyTransformDatastore_query self query w = (Raise e, w')
         ∧ calls w' = calls w ∧ heap w' = heap w).
Proof.
  intros Hraise. split.
  - intros value w.
    unfold KeyTransformDatastore_get, KeyTransformDatastore_put,
      KeyTransformDatastore_delete, KeyTransformDatastore_contains.
    by rewrite !(bind_Raise _ _ _ _ _ (Hraise w)).
  - intros query w Hkey.
    unfold KeyTransformDatastore_query.
    unfold bind at 1. unfold Query_copy at 1.
    unfold bind at 1. unfold Query_read at 1. simpl.
    rewrite fn_lookup_insert, Hkey.
    eexists. split; [by apply bind_Raise|done].
Qed.

Section LawfulChildren.

Context (view : S → Key → option Value) `{!LawfulDatastore view}.

Lemma KeyTransformDatastore_put_get_child (self : KeyTransformDatastore)
    (k1 k2 kt : Key) (v : Value) (w : World) :
  (∀ w, KeyTransformDatastore__transform self k1 w = (Ok kt, w)) →
  (∀ w, KeyTransformDatastore__transform self k2 w = (Ok kt, w)) →
  ∃ w1 w2,
    KeyTransformDatastore_put self k1 (Some v) w = (Ok tt, w1)
    ∧ KeyTransformDatastore_get self k2 w1 = (Ok (Some v), w2)
    ∧ calls w2
      = calls w ++ [EPut (child_datastore self) kt (Some v);
                    EGet (child_datastore self) kt].
Proof.
  intros Hk1 Hk2.
  destruct (call_put_lawful view (child_datastore self) kt v w)
    as (w1 & Hput & Hview & _ & Hcalls1).
  destruct (call_get_lawful view (child_datastore self) kt w1)
    as (w2 & Hget & _ & Hcalls2).
  exists w1, w2. split_and!.
  - unfold KeyTransformDatastore_put. by rewrite (bind_Ok _ _ _ _ _ (Hk1 w)).
  - unfold KeyTransformDatastore_get.
    by rewrite (bind_Ok _ _ _ _ _ (Hk2 w1)), Hget, Hview.
  - by rewrite Hcalls2, Hcalls1, <- app_assoc.
Qed.

(** X13. Through a [KeyTransformDatastore] over a child that behaves as a
    key-value store, a value put under a key is returned by [get] under
    every key with the same transform, the key itself first of all; the
    child sees one [put] and one [get], both at the transformed key. *)
Theorem KeyTransformDatastore_put_get (self : KeyTransformDatastore)
    (k1 k2 kt : Key) (v : Value) (w : World) :
  (∀ w, KeyTransformDatastore__transform self k1 w = (Ok kt, w)) →
  (∀ w, KeyTransformDatastore__transform self k2 w = (Ok kt, w)) →
  ∃ w1 w2,
    KeyTransformDatastore_put self k1 (Some v) w = (Ok tt, w1)
    ∧ KeyTransformDatastore_get self k2 w1 = (Ok (Some v), w2)
    ∧ calls w2
      = calls w ++ [EPut (child_datastore self) kt (Some v);
                    EGet (child_datastore self) kt].
Proof. apply KeyTransformDatastore_put_get_child. Qed.

(** X14. A [LowercaseKeyDatastore] does not tell keys apart that differ
    by the case of their letters only: a value put under one is returned
    by [get] under the other. *)
Theorem LowercaseKeyDatastore_ignores_case (datastore : loc) (k1 k2 : Key)
    (v : Value) (w : World) :
  str_lower (key_str k1) = str_lower (key_str k2) →
  ∃ w1 w2,
    KeyTransformDatastore_put (LowercaseKeyDatastore_init datastore) k1
      (Some v) w = (Ok tt, w1)
    ∧ KeyTransformDatastore_get (LowercaseKeyDatastore_init datastore) k2 w1
      = (Ok (Some v), w2).
Proof.
  intros Hlower.
  destruct (KeyTransformDatastore_put_get_child
              (LowercaseKeyDatastore_init datastore) k1 k2
              (LowercaseKeyDatastore_lowercaseKey k1) v w)
    as (w1 & w2 & Hput & Hget & _).
  - done.
  - intros w0. unfold KeyTransformDatastore__transform. simpl.
    unfold LowercaseKeyDatastore_lowercaseKey. by rewrite Hlower.
  - by exists w1, w2.
Qed.

(** ** TieredDatastore *)

(** X15. On a [TieredDatastore] with at least one lawful tier, [put] of a
    value followed by [get] returns the value, and that [get] calls the
    first tier only and writes nothing.  With no tier at all both do
    nothing and [get] returns [None]. *)
Theorem TieredDatastore_put_get (self : TieredDatastore) (k : Key)
    (v : Value) (w : World) :
  (∀ store rest, tiered_stores self = store :: rest →
     ∃ w1 w2,
       TieredDatastore_put self k (Some v) w = (Ok tt, w1)
       ∧ TieredDatastore_get self k w1 = (Ok (Some v), w2)
       ∧ calls w2 = calls w1 ++ [EGet store k])
  ∧ (tiered_stores self = [] →
       TieredDatastore_put self k (Some v) w = (Ok tt, w)
       ∧ TieredDatastore_get self k w = (Ok None, w)).
Proof.
  unfold TieredDatastore_put, TieredDatastore_get. split.
  - intros store rest Hstores.
    destruct (TieredDatastore_put_loop_lawful view k v (tiered_stores self) w)
      as (w1 & Hput & _ & _ & Hall).
    assert (Hv : view (heap w1 store) k = Some v).
    { apply Hall. rewrite Hstores. by left. }
    destruct (TieredDatastore_get_probe_hit view k (tiered_stores self) w1
                0%nat store v) as (w2 & Hprobe & _ & Hcalls).
    { by rewrite Hstores. }
    { done. }
    { intros; lia. }
    exists w1, w2. split_and!; [done| |].
    + rewrite (bind_Ok _ _ _ _ _ Hprobe).
      rewrite Hstores. simpl. by case_decide.
    + rewrite Hcalls, Hstores. simpl. by rewrite ?take_0.
  - intros ->. done.
Qed.

(** X16. After a [get] that found the value at some tier, the next
    [get] of the same key returns the same value from the first tier: it
    makes one call, the probe of the first tier, and no [put]. *)
Theorem TieredDatastore_get_twice (self : TieredDatastore) (k : Key)
    (w : World) (i : nat) (store : loc) (v : Value) :
  tiered_stores self !! i = Some store →
  view (heap w store) k = Some v →
  (∀ j l, (j < i)%nat → tiered_stores self !! j = Some l →
     view (heap w l) k = None) →
  ∃ w1 w2 first,
    TieredDatastore_get self k w = (Ok (Some v), w1)
    ∧ tiered_stores self !! 0%nat = Some first
    ∧ TieredDatastore_get self k w1 = (Ok (Some v), w2)
    ∧ calls w2 = calls w1 ++ [EGet first k].
Proof.
  intros Hi Hv Hbefore. unfold TieredDatastore_get.
  destruct (TieredDatastore_get_probe_hit view k _ w i store v Hi Hv Hbefore)
    as (wp & Hprobe & Hviewp & _).
  destruct (TieredDatastore_get_promote_lawful view k v store
              (tiered_stores self) wp i Hi)
    as (w1 & Hprom & _ & Hkeep & Hdone).
  { intros j l Hj Hl ->. specialize (Hbefore j store Hj Hl). congruence. }
  destruct (tiered_stores self) as [|first rest] eqn:Hstores; [done|].
  assert (Hfirst : view (heap w1 first) k = Some v).
  { destruct i as [|i].
    - simpl in Hi. injection Hi as ->. apply Hkeep. by rewrite Hviewp.
    - apply (Hdone 0%nat); [lia|done]. }
  destruct (TieredDatastore_get_probe_hit view k (first :: rest) w1
              0%nat first v) as (w2 & Hprobe2 & _ & Hcalls2);
    [done|done|intros; lia|].
  exists w1, w2, first. split_and!.
  - rewrite (bind_Ok _ _ _ _ _ Hprobe).
    by rewrite (bind_Ok _ _ _ _ _ Hprom).
  - done.
  - rewrite (bind_Ok _ _ _ _ _ Hprobe2). simpl. by case_decide.
  - rewrite Hcalls2. simpl. by rewrite ?take_0.
Qed.

Lemma call_delete_lawful `{!LawfulDelete view} store key w :
  ∃ w', call_delete store key w = (Ok tt, w')
    ∧ view (heap w' store) key = None
    ∧ (∀ l k, (l ≠ store ∨ k ≠ key) → view (heap w' l) k = view (heap w l) k)
    ∧ calls w' = calls w ++ [EDelete store key].
Proof.
  destruct (lawful_delete key (heap w store)) as (s' & Hdel & Hk & Hother).
  unfold call_delete, call. rewrite Hdel.
  eexists. split; [done|]. simpl. split_and!; [|intros l k Hlk|done].
  - by rewrite fn_lookup_insert.
  - destruct (decide (store = l)) as [<-|Hne].
    + rewrite fn_lookup_insert. apply Hother. by destruct Hlk.
    + by rewrite fn_lookup_insert_ne.
Qed.

Lemma call_contains_lawful `{!LawfulContains view} store key w :
  ∃ w', call_contains store key w
        = (Ok (bool_decide (is_Some (view (heap w store) key))), w')
    ∧ (∀ l k, view (heap w' l) k = view (heap w l) k)
    ∧ calls w' = calls w ++ [EContains store key].
Proof.
  destruct (lawful_contains key (heap w store)) as (s' & Hc & Hview).
  unfold call_contains, call. rewrite Hc.
  eexists. split; [done|]. simpl. split; [|done].
  intros l k. destruct (decide (store = l)) as [<-|Hne].
  - by rewrite fn_lookup_insert.
  - by rewrite fn_lookup_insert_ne.
Qed.

Lemma TieredDatastore_delete_loop_lawful `{!LawfulDelete view} key stores w :
  ∃ w', TieredDatastore_delete_loop key stores w = (Ok tt, w')
    ∧ calls w' = calls w ++ map (λ l, EDelete l key) stores
    ∧ (∀ l, view (heap w l) key = None → view (heap w' l) key = None)
    ∧ (∀ l, l ∈ stores → view (heap w' l) key = None).
Proof.
  revert w. induction stores as [|store stores IH]; intros w.
  - exists w. simpl. split_and!; [done|by rewrite app_nil_r|done|].
    intros l Hl. by apply elem_of_nil in Hl.
  - destruct (call_delete_lawful store key w)
      as (w1 & Hdel & Hk & Hother & Hcalls1).
    destruct (IH w1) as (w' & Hloop & Hcalls & Hkeep & Hall).
    exists w'. split_and!.
    + simpl. by rewrite (bind_Ok _ _ _ _ _ Hdel).
    + rewrite Hcalls, Hcalls1. simpl. by rewrite <- app_assoc.
    + intros l Hl. apply Hkeep.
      destruct (decide (l = store)) as [->|Hne]; [done|].
      rewrite Hother by (by left). done.
    + intros l Hl.
      apply elem_of_cons in Hl as [->|Hl]; [by apply Hkeep|by apply Hall].
Qed.

(** X17. [delete] on a [TieredDatastore] calls [delete] on every tier, in
    order; afterwards no tier holds the key, and [get] returns [None]. *)
Theorem TieredDatastore_delete_get `{!LawfulDelete view}
    (self : TieredDatastore) (k : Key) (w : World) :
  ∃ w1 w2,
    TieredDatastore_delete self k w = (Ok tt, w1)
    ∧ calls w1 = calls w ++ map (λ l, EDelete l k) (tiered_stores self)
    ∧ (∀ l, l ∈ tiered_stores self → view (heap w1 l) k = None)
    ∧ TieredDatastore_get self k w1 = (Ok None, w2).
Proof.
  destruct (TieredDatastore_delete_loop_lawful k (tiered_stores self) w)
    as (w1 & Hdel & Hcalls & _ & Hall).
  destruct (TieredDatastore_get_probe_miss view k (tiered_stores self) w1 Hall)
    as (w2 & Hprobe & _).
  exists w1, w2. split_and!; [done|done|done|].
  unfold TieredDatastore_get. by rewrite (bind_Ok _ _ _ _ _ Hprobe).
Qed.

(** X18. [contains] on a [TieredDatastore] asks the tiers in order and
    stops at the first that holds the key: it is [True] exactly when some
    tier holds the key, the tiers after the first hit are not asked, and
    no tier is written (there is no promotion). *)
Theorem TieredDatastore_contains_first_hit `{!LawfulContains view}
    (self : TieredDatastore) (k : Key) (w : World) :
  ((∀ l, l ∈ tiered_stores self → view (heap w l) k = None) →
     ∃ w', TieredDatastore_contains self k w = (Ok false, w')
       ∧ calls w' = calls w ++ map (λ l, EContains l k) (tiered_stores self)
       ∧ ∀ l k', view (heap w' l) k' = view (heap w l) k')
  ∧ (∀ i store,
       tiered_stores self !! i = Some store →
       is_Some (view (heap w store) k) →
       (∀ j l, (j < i)%nat → tiered_stores self !! j = Some l →
          view (heap w l) k = None) →
       ∃ w', TieredDatastore_contains self k w = (Ok true, w')
         ∧ calls w'
           = calls w ++ map (λ l, EContains l k)
                          (take (Datatypes.S i) (tiered_stores self))
         ∧ ∀ l k', view (heap w' l) k' = view (heap w l) k').
Proof.
  unfold TieredDatastore_contains.
  generalize (tiered_stores self). intros stores. split.
  - revert w. induction stores as [|store stores IH]; intros w Hnone.
    + exists w. simpl. by rewrite app_nil_r.
    + destruct (call_contains_lawful store k w) as (w1 & Hc & Hview1 & Hcalls1).
      rewrite Hnone in Hc by left.
      rewrite bool_decide_eq_false_2 in Hc by (by intros [x Hx]).
      destruct (IH w1) as (w' & Hloop & Hcalls & Hview).
      { intros l Hl. rewrite Hview1. apply Hnone. by right. }
      exists w'. split_and!.
      * simpl. by rewrite (bind_Ok _ _ _ _ _ Hc).
      * rewrite Hcalls, Hcalls1. simpl. by rewrite <- app_assoc.
      * intros l k'. by rewrite Hview, Hview1.
  - revert w. induction stores as [|store0 stores IH];
      intros w i store Hi Hv Hbefore; [done|].
    destruct (call_contains_lawful store0 k w) as (w1 & Hc & Hview1 & Hcalls1).
    destruct i as [|i]; simpl in Hi.
    + injection Hi as ->.
      rewrite bool_decide_eq_true_2 in Hc by done.
      exists w1. split_and!; [|by rewrite Hcalls1; simpl; rewrite ?take_0|done].
      simpl. by rewrite (bind_Ok _ _ _ _ _ Hc).
    + rewrite (Hbefore 0%nat store0) in Hc by (done || lia).
      rewrite bool_decide_eq_false_2 in Hc by (by intros [x Hx]).
      destruct (IH w1 i store) as (w' & Hloop & Hcalls & Hview).
      { done. }
      { by rewrite Hview1. }
      { intros j l Hj Hl. rewrite Hview1.
        apply (Hbefore (Datatypes.S j)); [lia|done]. }
      exists w'. split_and!.
      * simpl. by rewrite (bind_Ok _ _ _ _ _ Hc).
      * rewrite Hcalls, Hcalls1. simpl. by rewrite <- app_assoc.
      * intros l k'. by rewrite Hview, Hview1.
Qed.

(** ** ShardedDatastore *)

Lemma ShardedDatastore_shardDatastore_Ok (self : ShardedDatastore) (key : Key) :
  sharded_stores self ≠ [] →
  ∃ store, ShardedDatastore_shardDatastore self key = Ok store.
Proof.
  intros Hne.
  assert (Hlen : 0 < Z.of_nat (length (sharded_stores self))).
  { destruct (sharded_stores self); simpl; [done|lia]. }
  destruct (list_getitem_in_range (sharded_stores self)
              (_shardingfn self key `mod` Z.of_nat (length (sharded_stores self))))
    as (store & Hget & _); [by apply Z.mod_pos_bound|].
  exists store.
  unfold ShardedDatastore_shardDatastore, ShardedDatastore_shard,
    ShardedDatastore_datastore.
  case_decide; [lia|]. done.
Qed.

(** X19. On a [ShardedDatastore] with at least one lawful shard, [put] of
    a value followed by [get] returns the value; both go to the one shard
    selected for the key and no other shard is called. *)
Theorem ShardedDatastore_put_get (self : ShardedDatastore) (k : Key)
    (v : Value) (w : World) :
  sharded_stores self ≠ [] →
  ∃ store w1 w2,
    ShardedDatastore_shardDatastore self k = Ok store
    ∧ ShardedDatastore_put self k (Some v) w = (Ok tt, w1)
    ∧ ShardedDatastore_get self k w1 = (Ok (Some v), w2)
    ∧ calls w2 = calls w ++ [EPut store k (Some v); EGet store k].
Proof.
  intros Hne.
  destruct (ShardedDatastore_shardDatastore_Ok self k Hne) as (store & Hstore).
  destruct (call_put_lawful view store k v w)
    as (w1 & Hput & Hview & _ & Hcalls1).
  destruct (call_get_lawful view store k w1) as (w2 & Hget & _ & Hcalls2).
  exists store, w1, w2.
  unfold ShardedDatastore_put, ShardedDatastore_get, bind, lift.
  rewrite Hstore. split_and!; [done|done| |].
  - by rewrite Hget, Hview.
  - by rewrite Hcalls2, Hcalls1, <- app_assoc.
Qed.

(** X20. A [put] on a [ShardedDatastore] changes what [get] returns at no
    other key, whether the other key lives in the same shard or not. *)
Theorem ShardedDatastore_put_get_other (self : ShardedDatastore) (k k' : Key)
    (v : Value) (w : World) :
  sharded_stores self ≠ [] →
  k' ≠ k →
  (ShardedDatastore_get self k' (ShardedDatastore_put self k (Some v) w).2).1
  = (ShardedDatastore_get self k' w).1.
Proof.
  intros Hne Hk.
  destruct (ShardedDatastore_shardDatastore_Ok self k Hne) as (store & Hstore).
  destruct (ShardedDatastore_shardDatastore_Ok self k' Hne) as (store' & Hstore').
  destruct (call_put_lawful view store k v w)
    as (w1 & Hput & _ & Hother & _).
  destruct (call_get_lawful view store' k' w1) as (w2 & Hget1 & _).
  destruct (call_get_lawful view store' k' w) as (w3 & Hget & _).
  unfold ShardedDatastore_put, ShardedDatastore_get, bind, lift.
  rewrite Hstore, Hstore', Hput. simpl.
  rewrite Hget1, Hget. simpl. f_equal.
  apply Hother. by right.
Qed.

(** X21. On a [ShardedDatastore] with at least one lawful shard,
    [delete] followed by [get] returns [None]; only the selected shard is
    called. *)
Theorem ShardedDatastore_delete_get `{!LawfulDelete view}
    (self : ShardedDatastore) (k : Key) (w : World) :
  sharded_stores self ≠ [] →
  ∃ store w1 w2,
    ShardedDatastore_shardDatastore self k = Ok store
    ∧ ShardedDatastore_delete self k w = (Ok tt, w1)
    ∧ ShardedDatastore_get self k w1 = (Ok None, w2)
    ∧ calls w2 = calls w ++ [EDelete store k; EGet store k].
Proof.
  intros Hne.
  destruct (ShardedDatastore_shardDatastore_Ok self k Hne) as (store & Hstore).
  destruct (call_delete_lawful store k w)
    as (w1 & Hdel & Hview & _ & Hcalls1).
  destruct (call_get_lawful view store k w1) as (w2 & Hget & _ & Hcalls2).
  exists store, w1, w2.
  unfold ShardedDatastore_delete, ShardedDatastore_get, bind, lift.
  rewrite Hstore. split_and!; [done|done| |].
  - by rewrite Hget, Hview.
  - by rewrite Hcalls2, Hcalls1, <- app_assoc.
Qed.

End LawfulChildren.

(** X22. [TieredDatastore.query] raises [IndexError] when there is no
    tier and calls nothing; otherwise it is the [query] of the last tier,
    called once with the caller's own [Query] object, and no other tier is
    called. *)
Theorem TieredDatastore_query_last (self : TieredDatastore) (query : qref)
    (w : World) :
  (tiered_stores self = [] →
     TieredDatastore_query self query w = (Raise IndexError, w))
  ∧ (∀ store, last (tiered_stores self) = Some store →
       TieredDatastore_query self query w = call_query store query w
       ∧ calls (TieredDatastore_query self query w).2
         = calls w ++ [EQuery store (queries w query)]).
Proof.
  unfold TieredDatastore_query. split.
  - intros ->. done.
  - intros store Hlast.
    assert (Hget : list_getitem (tiered_stores self) (-1) = Ok store).
    { rewrite last_lookup in Hlast.
      assert (Hlen : (0 < length (tiered_stores self))%nat).
      { apply lookup_lt_Some in Hlast. lia. }
      unfold list_getitem. repeat case_decide; try lia.
      replace (Z.to_nat (-1 + Z.of_nat (length (tiered_stores self))))
        with (pred (length (tiered_stores self))) by lia.
      by rewrite Hlast. }
    unfold bind, lift. rewrite Hget.
    split; [done|]. apply call_query_calls.
Qed.

Section Counting.

Context {counting : CountingQuery}.

Lemma call_query_Ok store query w cursor w1 :
  call_query store query w = (Ok cursor, w1) →
  ∃ s', ds_query (queries w query) (heap w store) = (Ok cursor, s').
Proof.
  unfold call_query, bind, Query_read, call.
  destruct (ds_query (queries w query) (heap w store)) as [r s'].
  intros [= -> _]. eauto.
Qed.

Lemma shard_loop_list_bound shard_query stores w L l w' :
  limit (queries w shard_query) = Some L →
  0 ≤ L →
  shard_loop_list shard_query stores w = (Ok l, w') →
  Z.of_nat (length l) ≤ L.
Proof.
  revert w L l. induction stores as [|shard stores IH];
    intros w L l HL HL0 Hloop.
  - injection Hloop as <- _. simpl. lia.
  - simpl in Hloop.
    destruct (call_query shard shard_query w) as [[cursor|e] w1] eqn:Hcall.
    2:{ by rewrite (bind_Raise _ _ _ _ _ Hcall) in Hloop. }
    rewrite (bind_Ok _ _ _ _ _ Hcall) in Hloop.
    destruct (call_query_Ok _ _ _ _ _ Hcall) as (s' & Hds).
    destruct (counting_query _ _ _ _ Hds) as (Hlen & Hlim).
    specialize (Hlim L HL).
    destruct (call_query_calls shard shard_query w) as (_ & Hq1 & _).
    rewrite Hcall in Hq1. simpl in Hq1.
    destruct (shard_query_update_spec shard_query cursor w1)
      as (w2 & Hupd & Hq2 & _).
    rewrite Hq1 in Hq2.
    rewrite (bind_Ok _ _ _ _ _ Hupd) in Hloop.
    destruct (limit_used_up (queries w1 shard_query) cursor).
    + injection Hloop as <- _. lia.
    + destruct (shard_loop_list shard_query stores w2) as [[tail|e] w3] eqn:Htail.
      2:{ by rewrite (bind_Raise _ _ _ _ _ Htail) in Hloop. }
      rewrite (bind_Ok _ _ _ _ _ Htail) in Hloop.
      injection Hloop as <- <-.
      assert (Z.of_nat (length tail) ≤ L - Z.of_nat (returned cursor)).
      { apply (IH w2 _ tail); [|lia|done].
        rewrite Hq2, HL. simpl. f_equal. lia. }
      rewrite length_app. lia.
Qed.

(** X23. When the shards' cursors count what they yield and respect the
    limit of the query they are given, a sharded query with limit [L]
    yields at most [L] items over all shards together. *)
Theorem ShardedDatastore_query_within_limit (self : ShardedDatastore)
    (query : qref) (w w' : World) (L : Z) (l : list Value) :
  limit (queries w query) = Some L →
  0 ≤ L →
  Generator_list (ShardedDatastore_shard_query_generator self query) w
  = (Ok l, w') →
  Z.of_nat (length l) ≤ L.
Proof.
  intros HL HL0. unfold ShardedDatastore_shard_query_generator. simpl.
  unfold bind at 1. unfold Query_copy at 1.
  apply shard_loop_list_bound; [|done].
  simpl. by rewrite fn_lookup_insert.
Qed.

End Counting.

Lemma naive_Query_call_counts (q : Query) (values : list Value) :
  length (items (naive_Query_call q values))
  = returned (naive_Query_call q values)
  ∧ ∀ l, limit q = Some l →
      Z.of_nat (returned (naive_Query_call q values)) ≤ Z.max l 0.
Proof.
  unfold naive_Query_call. simpl. split; [done|].
  intros l ->. rewrite length_take. lia.
Qed.

(** ** The default [contains] *)

Section DefaultContains.

Context (view : S → Key → option Value)
  `{!LawfulDatastore view} `{!LawfulContains view}.

(** X24. Over a child that behaves as a key-value store, the default
    [contains] of the base class, which pays a [get], and the [contains]
    of [KeyTransformDatastore], which asks the child's [contains], give the
    same answer: whether the child holds the transformed key.  They differ
    only in the call they make on the child. *)
Theorem KeyTransformDatastore_contains_default (self : KeyTransformDatastore)
    (k kt : Key) (w : World) :
  (∀ w, KeyTransformDatastore__transform self k w = (Ok kt, w)) →
  ∃ w1 w2,
    Datastore_contains (KeyTransformDatastore_get self) k w
    = (Ok (bool_decide (is_Some (view (heap w (child_datastore self)) kt))), w1)
    ∧ calls w1 = calls w ++ [EGet (child_datastore self) kt]
    ∧ KeyTransformDatastore_contains self k w
      = (Ok (bool_decide (is_Some (view (heap w (child_datastore self)) kt))), w2)
    ∧ calls w2 = calls w ++ [EContains (child_datastore self) kt].
Proof.
  intros Hk.
  destruct (call_get_lawful view (child_datastore self) kt w)
    as (w1 & Hget & _ & Hcalls1).
  destruct (call_contains_lawful view (child_datastore self) kt w)
    as (w2 & Hc & _ & Hcalls2).
  exists w1, w2. split_and!; [|done| |done].
  - unfold Datastore_contains, KeyTransformDatastore_get.
    unfold bind at 1. rewrite (bind_Ok _ _ _ _ _ (Hk w)), Hget. done.
  - unfold KeyTransformDatastore_contains.
    by rewrite (bind_Ok _ _ _ _ _ (Hk w)).
Qed.

End DefaultContains.

(** ** The generator of a sharded query, again *)

(** X25. Pulling the generator of a sharded query item by item gives what
    materialising it gives: when [list] returns [l], one [next] per item
    and one more for the end yield exactly [l] and leave the same world. *)
Theorem Generator_next_gives_list (g : Generator) (w w' : World)
    (l : list Value) :
  Generator_list g w = (Ok l, w') →
  ∃ g', Generator_take (Datatypes.S (length l)) g w = (Ok (l, g'), w').
Proof. apply Generator_take_list. Qed.

(** X26. A sharded query visits the shards in the order of the
    collection: consumed to its end, whether it ends normally or by an
    exception of a shard, the generator has made [query] calls only, on a
    prefix of the stores, in order. *)
Theorem ShardedDatastore_query_visits_in_order (self : ShardedDatastore)
    (query : qref) (w : World) :
  ∃ es,
    calls (Generator_list
             (ShardedDatastore_shard_query_generator self query) w).2
    = calls w ++ es
    ∧ Forall (λ e, ∃ store q, e = EQuery store q) es
    ∧ visited es `prefix_of` sharded_stores self.
Proof.
  unfold ShardedDatastore_shard_query_generator. simpl.
  unfold bind at 1. unfold Query_copy at 1.
  destruct (shard_loop_list_visits (qnext w) (sharded_stores self)
              (mkWorld (heap w) (<[qnext w := queries w query]> (queries w))
                 (Datatypes.S (qnext w)) (calls w)))
    as (es & Hcalls & Hall & Hprefix).
  by exists es.
Qed.

(** X27. After a shard's cursor is exhausted the clone of the query has
    its offset lowered by the cursor's [skipped] and floored at 0 and its
    limit, when there is one, lowered by the cursor's [returned] and
    floored at 0; its key, order and filters are as before, and no other
    [Query] object, no store and no call is touched. *)
Theorem shard_query_update_renormalizes (shard_query : qref) (cursor : Cursor)
    (w : World) :
  ∃ done w',
    shard_query_update shard_query cursor w = (Ok done, w')
    ∧ queries w' shard_query
      = mkQuery (qkey (queries w shard_query))
          (Z.max (offset (queries w shard_query) - Z.of_nat (skipped cursor)) 0)
          ((λ l, Z.max (l - Z.of_nat (returned cursor)) 0)
             <$> limit (queries w shard_query))
          (order (queries w shard_query)) (filters (queries w shard_query))
    ∧ (∀ q, q ≠ shard_query → queries w' q = queries w q)
    ∧ heap w' = heap w ∧ qnext w' = qnext w ∧ calls w' = calls w.
Proof.
  destruct (shard_query_update_spec shard_query cursor w) as (w' & Hspec).
  by exists (limit_used_up (queries w shard_query) cursor), w'.
Qed.

(** X28. A limit that is not 0 and that a shard's cursor uses up ends
    the sharded query there: the items of that shard are the last ones,
    the remaining limit is 0 and no further shard is queried. *)
Theorem shard_query_generator_stops_at_limit (shard_query : qref)
    (shard : loc) (stores : list loc) (w w1 : World) (cursor : Cursor)
    (l : Z) :
  call_query shard shard_query w = (Ok cursor, w1) →
  limit (queries w shard_query) = Some l →
  l ≠ 0 →
  l ≤ Z.of_nat (returned cursor) →
  ∃ w', shard_loop_list shard_query (shard :: stores) w
        = (Ok (items cursor), w')
    ∧ calls w' = calls w ++ [EQuery shard (queries w shard_query)]
    ∧ limit (queries w' shard_query) = Some 0.
Proof. apply shard_loop_list_stops. Qed.

End Datastore.

(** * Concrete runs

    Keys are strings in the flat key space, values are numbers, the
    children are [DictDatastore]s queried with [naive_Query_call], and an
    order directive sorts the numbers. *)

Notation "'DictStore'" :=
  (DictDatastore_Datastore (Value := nat) (Order := unit) (Filter := unit)
     flat_path flat_str naive_Query_call) (only parsing).

Notation "'DictLawful'" :=
  (Dict_lawful (Value := nat) (Order := unit) (Filter := unit)
     flat_path flat_str naive_Query_call) (only parsing).

Notation "'by_value'" := (λ (_ : list unit) (l : list nat), merge_sort Nat.le l)
  (only parsing).

Notation "'store_with' k v" :=
  (DictDatastore_put flat_path flat_str k (Some v%nat) (mkDict ∅))
  (at level 10, k at level 9, v at level 9, only parsing).

Notation "'query_with' l o" :=
  (mkQuery (Key := string) (Order := unit) (Filter := unit) "/" 0 l o [])
  (at level 10, l at level 9, o at level 9, only parsing).

(** C1 (the code against the claim). Two shards hold one item each.  With
    a limit of 1 the first shard uses the limit up and the second shard is
    not queried.  With a limit of 0 the remaining limit is 0 after the
    first shard, and the second shard is queried all the same: the test
    [if shard_query.limit:] takes a limit of 0 for no limit, and the
    [break] under it is never reached. *)
Theorem shard_query_generator_limit_zero_queries_every_shard :
  let self := mkSharded [0; 1]%nat (λ _ : string, 0) in
  let w1 := init_world (store_with "/a" 7) (query_with (Some 1) None) in
  let w0 := init_world (store_with "/a" 7) (query_with (Some 0) None) in
  let r1 := Generator_list (DS := DictStore)
              (ShardedDatastore_shard_query_generator self 0%nat) w1 in
  let r0 := Generator_list (DS := DictStore)
              (ShardedDatastore_shard_query_generator self 0%nat) w0 in
  (r1.1 = Ok [7%nat]
   ∧ calls r1.2 = [EQuery 0%nat (query_with (Some 1) None)]
   ∧ limit (queries r1.2 1%nat) = Some 0)
  ∧ (r0.1 = Ok []
     ∧ calls r0.2 = [EQuery 0%nat (query_with (Some 0) None);
                     EQuery 1%nat (query_with (Some 0) None)]
     ∧ limit (queries r0.2 1%nat) = Some 0).
Proof. vm_compute. repeat split; reflexivity. Qed.

(** [nestedPath] on the documented input is the first three chunks of
    two characters. *)
Lemma nestedPath_chunks_witness :
  0 < 2 ∧ 0 ≤ 3
  ∧ nestedPath "abcdefghijk" 3 2
    = Ok (String.concat "/"
            (take (Z.to_nat 3) (chunks (Z.to_nat 2) "abcdefghijk"))).
Proof.
  split; [lia|]. split; [lia|].
  apply (proj1 nestedPath_chunks); lia.
Defined.

(** Three tiers, the key held by the last one only: [get] probes the
    three tiers and then writes the value into the first two. *)
Lemma TieredDatastore_get_promotes_witness :
  let w := mkWorld
             (λ l : loc, if decide (l = 2%nat) then store_with "/a" 7
                         else mkDict ∅)
             (λ _, query_with None None) 1%nat [] in
  ∃ w',
    TieredDatastore_get (DS := DictStore) (mkTiered [0; 1; 2]%nat) "/a" w
    = (Ok (Some 7%nat), w')
    ∧ calls w' = [EGet 0%nat "/a"; EGet 1%nat "/a"; EGet 2%nat "/a";
                  EPut 0%nat "/a" (Some 7%nat); EPut 1%nat "/a" (Some 7%nat)]
    ∧ Dict_view flat_path flat_str (heap w' 0%nat) "/a" = Some 7%nat
    ∧ Dict_view flat_path flat_str (heap w' 1%nat) "/a" = Some 7%nat.
Proof.
  intros w.
  destruct (TieredDatastore_get_promotes (DS := DictStore)
              (Dict_view flat_path flat_str) (LawfulDatastore0 := DictLawful)
              (mkTiered [0; 1; 2]%nat) "/a" w) as [_ Hhit].
  destruct (Hhit 2%nat 2%nat 7%nat) as (w' & Hget & Hcalls & Hview & _).
  - reflexivity.
  - vm_compute. reflexivity.
  - intros j l Hj Hl.
    destruct j as [|[|j]]; [| |lia]; injection Hl as <-; vm_compute; reflexivity.
  - exists w'. split; [exact Hget|]. split; [exact Hcalls|].
    split; [apply (Hview 0%nat)|apply (Hview 1%nat)]; (lia || reflexivity).
Defined.

(** Two empty tiers: [put] writes both, and both then return the value. *)
Lemma TieredDatastore_put_writes_through_witness :
  ∃ w',
    TieredDatastore_put (DS := DictStore) (mkTiered [0; 1]%nat) "/a"
      (Some 7%nat) (init_world (mkDict ∅) (query_with None None))
    = (Ok tt, w')
    ∧ calls w' = [EPut 0%nat "/a" (Some 7%nat); EPut 1%nat "/a" (Some 7%nat)]
    ∧ ∀ l, l ∈ [0; 1]%nat →
        ∃ s', ds_get (Datastore := DictStore) "/a" (heap w' l)
              = (Ok (Some 7%nat), s').
Proof.
  destruct (TieredDatastore_put_writes_through (DS := DictStore)
              (Dict_view flat_path flat_str) (LawfulDatastore0 := DictLawful)
              (mkTiered [0; 1]%nat) "/a" 7%nat
              (init_world (mkDict ∅) (query_with None None)))
    as (w' & Hput & Hcalls & Hget).
  exists w'. split; [exact Hput|]. split; [exact Hcalls|exact Hget].
Defined.

(** The caller's query at reference 0 in a world of [DictDatastore]s. *)
Lemma query_keeps_callers_Query_witness :
  let w := init_world (S := DictDatastore) (store_with "/a" 7)
             (query_with (Some 1) None) in
  (0 < qnext w)%nat
  ∧ (∀ self : KeyTransformDatastore,
       queries (KeyTransformDatastore_query (DS := DictStore) self 0%nat w).2
         0%nat
       = query_with (Some 1) None)
  ∧ (∀ (self : ShardedDatastore) (fuel : nat),
       queries
         (Generator_take (DS := DictStore) fuel
            (ShardedDatastore_shard_query_generator self 0%nat) w).2
         0%nat
       = query_with (Some 1) None).
Proof.
  intros w.
  assert (Hq : (0 < qnext w)%nat) by (simpl; lia).
  destruct (query_keeps_callers_Query by_value (DS := DictStore) 0%nat w Hq)
    as (Hkt & _ & Hgen & _).
  split; [exact Hq|]. split; [exact Hkt|exact Hgen].
Defined.

(** A key transform that raises nothing and rewrites the key: the clone at
    reference 1 carries the rewritten key, the caller's query at 0 does
    not. *)
Example KeyTransformDatastore_query_rewrites_the_clone :
  let self := mkKeyTransform 0%nat (Some (λ k : string, Ok ("/ns" +:+ k))) in
  let w := init_world (S := DictDatastore) (store_with "/a" 7)
             (query_with None None) in
  let w' := (KeyTransformDatastore_query (DS := DictStore) self 0%nat w).2 in
  qkey (queries w' 0%nat) = "/" ∧ qkey (queries w' 1%nat) = "/ns/"
  ∧ calls w' = [EQuery 0%nat
                  (mkQuery (Order := unit) (Filter := unit) "/ns/" 0 None None [])].
Proof. vm_compute. repeat split; reflexivity. Qed.

(** Two shards, one item each.  Without an order the cursor holds the
    generator and nothing has run; with an order it holds the sorted
    items. *)
Lemma ShardedDatastore_query_sorts_on_order_witness :
  let self := mkSharded [0; 1]%nat (λ _ : string, 0) in
  let heap := λ l : loc, if decide (l = 0%nat) then store_with "/b" 9
                         else store_with "/a" 7 in
  let w := mkWorld heap (λ _, query_with None None) 1%nat [] in
  let wo := mkWorld heap (λ _, query_with None (Some [tt])) 1%nat [] in
  ShardedDatastore_query by_value (DS := DictStore) self 0%nat w
  = (Ok (mkShardedCursor 0%nat
           (FromGenerator
              (ShardedDatastore_shard_query_generator self 0%nat))), w)
  ∧ (ShardedDatastore_query by_value (DS := DictStore) self 0%nat wo).1
    = Ok (mkShardedCursor 0%nat (FromList [7; 9]%nat)).
Proof.
  intros self heap w wo. split.
  - apply (proj1 (ShardedDatastore_query_sorts_on_order by_value
                    (DS := DictStore) self 0%nat w)).
    reflexivity.
  - rewrite (proj2 (ShardedDatastore_query_sorts_on_order by_value
                      (DS := DictStore) self 0%nat wo) [tt]);
      [|reflexivity|discriminate].
    vm_compute. reflexivity.
Defined.

(** Three shards and a sharding function that gives -1: the index is
    [-1 % 3 = 2]. *)
Lemma ShardedDatastore_needs_a_shard_witness :
  ∃ self store,
    ShardedDatastore_init [0; 1; 2]%nat (λ _ : string, -1) = Ok self
    ∧ ShardedDatastore_shardDatastore self "/a" = Ok store
    ∧ store = 2%nat
    ∧ ∀ w, ShardedDatastore_get (DS := DictStore) self "/a" w
           = call_get (DS := DictStore) store "/a" w.
Proof.
  destruct (proj2 (ShardedDatastore_needs_a_shard (DS := DictStore)
                     (λ _ : string, -1))
              [0; 1; 2]%nat "/a")
    as (self & store & Hinit & Hshard & Hlook & Hops); [discriminate|].
  exists self, store.
  split; [exact Hinit|]. split; [exact Hshard|].
  split.
  - vm_compute in Hlook. by injection Hlook.
  - intros w. apply (Hops None w).
Defined.

(** A value put into an empty [DictDatastore] is read back. *)
Lemma DictDatastore_put_get_witness :
  (DictDatastore_get flat_path flat_str "/a"
     (DictDatastore_put flat_path flat_str "/a" (Some 7%nat) (mkDict ∅))).1
  = Some 7%nat.
Proof. apply (DictDatastore_put_get flat_path flat_str). Defined.

(** [put(k, None)] on a store that holds [k] removes it, as [delete]
    does. *)
Lemma DictDatastore_put_None_is_delete_witness :
  (DictDatastore_get flat_path flat_str "/a"
     (DictDatastore_put flat_path flat_str "/a" None (store_with "/a" 7))).1
  = None
  ∧ DictDatastore_put flat_path flat_str "/a" None (store_with "/a" 7)
    = DictDatastore_delete flat_path flat_str "/a" (store_with "/a" 7).
Proof.
  destruct (DictDatastore_put_None_is_delete flat_path flat_str
              (store_with "/a" 7) "/a") as (Hget & Hsame & _).
  split; [exact Hget|exact Hsame].
Defined.

(** [query] on a nested-path store over a [DictDatastore] raises. *)
Lemma NestedPathDatastore_query_raises_witness :
  let w := init_world (Value := nat) (S := DictDatastore) (store_with "/a" 7)
             (query_with None None) in
  NestedPathDatastore_query (mkNestedPath (mkKeyTransform 0%nat None) 3 2)
    0%nat w
  = (Raise NotImplementedError, w).
Proof.
  intros w.
  apply (proj1 (NestedPathDatastore_query_raises
                  (mkNestedPath (mkKeyTransform 0%nat None) 3 2) 0%nat w)).
Defined.

(** * DictDatastore as a child: the further laws *)

Lemma Dict_lawful_delete {Key Value Order Filter : Type} `{Countable Key}
    (key_path : Key → Key) (key_str : Key → string)
    (Query_call : Query (Key := Key) (Order := Order) (Filter := Filter)
                  → list Value → Cursor (Value := Value)) :
  LawfulDelete (DS := DictDatastore_Datastore key_path key_str Query_call)
    (Dict_view key_path key_str).
Proof.
  split. intros k s. exists (DictDatastore_delete key_path key_str k s).
  split_and!.
  - done.
  - apply Dict_delete_view.
  - intros k' Hne. by apply Dict_delete_view_ne.
Qed.

Lemma Dict_lawful_contains {Key Value Order Filter : Type} `{Countable Key}
    (key_path : Key → Key) (key_str : Key → string)
    (Query_call : Query (Key := Key) (Order := Order) (Filter := Filter)
                  → list Value → Cursor (Value := Value)) :
  LawfulContains (DS := DictDatastore_Datastore key_path key_str Query_call)
    (Dict_view key_path key_str).
Proof.
  split. intros k s. exists (DictDatastore_get key_path key_str k s).2. split.
  - simpl. rewrite DictDatastore_contains_get_eq, Dict_get_view. done.
  - intros k'. apply Dict_get_preserves.
Qed.

Lemma Dict_counting {Key Value Order Filter : Type} `{Countable Key}
    (key_path : Key → Key) (key_str : Key → string) :
  CountingQuery
    (DS := DictDatastore_Datastore (Order := Order) (Filter := Filter)
             key_path key_str (naive_Query_call (Value := Value))).
Proof.
  split. intros q s c s' [= <- _].
  unfold DictDatastore_query.
  destruct (_items s !! key_str (qkey q)); apply naive_Query_call_counts.
Qed.

(** * Concrete runs of the further properties *)

Notation "'DictDelete'" :=
  (Dict_lawful_delete (Value := nat) (Order := unit) (Filter := unit)
     flat_path flat_str naive_Query_call) (only parsing).

Notation "'DictContains'" :=
  (Dict_lawful_contains (Value := nat) (Order := unit) (Filter := unit)
     flat_path flat_str naive_Query_call) (only parsing).

Notation "'DictCounting'" :=
  (Dict_counting (Value := nat) (Order := unit) (Filter := unit)
     flat_path flat_str) (only parsing).

Notation "'two_keys'" :=
  (DictDatastore_put flat_path flat_str "/b" (Some 9%nat) (store_with "/a" 7))
  (only parsing).

Notation "'flat_view'" := (Dict_view (Value := nat) flat_path flat_str)
  (only parsing).

Notation "'dict_world' s q" :=
  (init_world (Value := nat)
     (S := DictDatastore (Key := string) (Value := nat)) s q)
  (at level 10, s at level 9, q at level 9, only parsing).

Lemma DictDatastore_delete_get_witness :
  (DictDatastore_get flat_path flat_str "/a"
     (DictDatastore_delete flat_path flat_str "/a" two_keys)).1 = None
  ∧ (DictDatastore_get flat_path flat_str "/b"
       (DictDatastore_delete flat_path flat_str "/a" two_keys)).1 = Some 9%nat.
Proof.
  destruct (DictDatastore_delete_get flat_path flat_str two_keys "/a")
    as [Hgone Hother].
  split; [exact Hgone|].
  rewrite Hother by discriminate. vm_compute. reflexivity.
Defined.

Lemma DictDatastore_put_get_other_witness :
  (DictDatastore_get flat_path flat_str "/b"
     (DictDatastore_put flat_path flat_str "/a" None two_keys)).1
  = (DictDatastore_get flat_path flat_str "/b" two_keys).1.
Proof.
  apply (DictDatastore_put_get_other flat_path flat_str two_keys "/a" "/b" None).
  discriminate.
Defined.

Lemma DictDatastore_collections_own_keys_witness :
  Dict_wf flat_path flat_str (store_with "/a" 7).
Proof.
  destruct (DictDatastore_collections_own_keys (Value := nat)
              flat_path flat_str) as [Hempty Hkeep].
  apply (Hkeep (mkDict ∅) "/a" (Some 7%nat) Hempty).
Defined.

Lemma DictDatastore_query_put_witness :
  ∃ values,
    DictDatastore_query flat_str naive_Query_call (query_with None None)
      (store_with "/a" 7)
    = naive_Query_call (query_with None None) values
    ∧ 7%nat ∈ values.
Proof.
  apply (proj1 (DictDatastore_query_put flat_path flat_str naive_Query_call
                  (mkDict ∅) (query_with None None) "/a") 7%nat).
  reflexivity.
Defined.

Lemma DictDatastore_len_counts_witness :
  DictDatastore_len (store_with "/a" 7) = 1%nat
  ∧ Datatypes.S (DictDatastore_len
                   (DictDatastore_delete flat_path flat_str "/a" two_keys))
    = DictDatastore_len two_keys.
Proof.
  split.
  - destruct (DictDatastore_len_counts flat_path flat_str (mkDict ∅) "/a" 7%nat)
      as (_ & Hnew & _).
    destruct Hnew as [Hput _]; [vm_compute; reflexivity|].
    rewrite Hput. vm_compute. reflexivity.
  - destruct (DictDatastore_len_counts flat_path flat_str two_keys "/a" 7%nat)
      as (_ & _ & Hold).
    apply Hold. vm_compute. discriminate.
Defined.

Lemma DictDatastore_delete_missing_witness :
  DictDatastore_len (DictDatastore_delete flat_path flat_str "/c" two_keys)
  = DictDatastore_len two_keys.
Proof.
  destruct (DictDatastore_delete_missing flat_path flat_str two_keys "/c")
    as [Hmiss _].
  apply Hmiss. vm_compute. reflexivity.
Defined.

(** The key of the class documentation: [Key('abc')] with depth 3 and
    length 2 is nested under ab/ca/bc. *)
Lemma NestedPathDatastore_nestKey_pads_witness :
  ∃ components,
    NestedPathDatastore_nestKey flat_key flat_child (λ k : string, k)
      (mkNestedPath (mkKeyTransform 0%nat None) 3 2) "abc"
    = Ok (flat_child (flat_key (String.concat "/" components)) "abc")
    ∧ length components = 3%nat
    ∧ NestedPathDatastore_nestKey flat_key flat_child (λ k : string, k)
        (mkNestedPath (mkKeyTransform 0%nat None) 3 2) "abc"
      = Ok "ab/ca/bc/abc".
Proof.
  destruct (proj2 (NestedPathDatastore_nestKey_pads flat_key flat_child
                     (λ k : string, k)
                     (mkNestedPath (mkKeyTransform 0%nat None) 3 2) "abc"))
    as (components & Hkey & Hlen & _).
  - discriminate.
  - simpl. lia.
  - simpl. lia.
  - exists components. split; [exact Hkey|]. split; [exact Hlen|].
    vm_compute. reflexivity.
Defined.

Lemma DatastoreCollection_datastore_index_witness :
  DatastoreCollection_datastore [0; 1; 2]%nat (-1) = Ok 2%nat
  ∧ DatastoreCollection_datastore [0; 1; 2]%nat 3 = Raise IndexError.
Proof.
  destruct (DatastoreCollection_datastore_index [0; 1; 2]%nat (-1))
    as (_ & Hneg & _).
  destruct (DatastoreCollection_datastore_index [0; 1; 2]%nat 3)
    as (_ & _ & Hout).
  split.
  - destruct Hneg as (store & Hget & Hlook); [simpl; lia|].
    rewrite Hget. f_equal. vm_compute in Hlook. by injection Hlook.
  - apply Hout. simpl. lia.
Defined.

Lemma DatastoreCollection_appendDatastore_last_witness :
  DatastoreCollection_datastore
    (DatastoreCollection_appendDatastore [0; 1]%nat 5%nat) 1
  = DatastoreCollection_datastore [0; 1]%nat 1.
Proof.
  apply (DatastoreCollection_appendDatastore_last [0; 1]%nat 5%nat).
  simpl. lia.
Defined.

Lemma DatastoreCollection_removeDatastore_first_witness :
  DatastoreCollection_removeDatastore [1; 0; 2; 0]%nat 3%nat = Raise ValueError
  ∧ ∃ l1 l2, [1; 0; 2; 0]%nat = l1 ++ (0%nat :: l2) ∧ (0%nat ∉ l1)
      ∧ DatastoreCollection_removeDatastore [1; 0; 2; 0]%nat 0%nat
        = Ok (l1 ++ l2).
Proof.
  split.
  - apply (DatastoreCollection_removeDatastore_first [1; 0; 2; 0]%nat 3%nat).
    intros Hin. repeat (apply elem_of_cons in Hin as [Hin|Hin]; [discriminate|]).
    by apply elem_of_nil in Hin.
  - apply (DatastoreCollection_removeDatastore_first [1; 0; 2; 0]%nat 0%nat).
    right. left.
Defined.


Notation "'some_world'" := (dict_world (store_with "/a" 7) (query_with None None))
  (only parsing).

Notation "'empty_world'" := (dict_world (mkDict ∅) (query_with None None))
  (only parsing).

Notation "'third_tier_world'" :=
  (mkWorld
     (λ l : loc, if decide (l = 2%nat) then store_with "/a" 7 else mkDict ∅)
     (λ _, query_with None None) 1%nat []) (only parsing).

(** A transform that raises on every key: nothing reaches the child. *)
Lemma KeyTransformDatastore_transform_raises_witness :
  let self := mkKeyTransform 0%nat
                (Some (λ _ : string, Raise ZeroDivisionError)) in
  KeyTransformDatastore_get (DS := DictStore) self "/a" some_world
  = (Raise ZeroDivisionError, some_world)
  ∧ ∃ w', KeyTransformDatastore_query (DS := DictStore) self 0%nat some_world
          = (Raise ZeroDivisionError, w')
      ∧ calls w' = [].
Proof.
  intros self.
  destruct (KeyTransformDatastore_transform_raises (DS := DictStore) self "/"
              ZeroDivisionError) as [_ Hquery]; [reflexivity|].
  destruct (KeyTransformDatastore_transform_raises (DS := DictStore) self "/a"
              ZeroDivisionError) as [Hops _]; [reflexivity|].
  split; [apply (Hops None some_world)|].
  destruct (Hquery 0%nat some_world) as (w' & Hq & Hcalls & _); [reflexivity|].
  exists w'. split; [exact Hq|exact Hcalls].
Defined.

(** A namespacing transform: the value is filed under the prefixed key. *)
Lemma KeyTransformDatastore_put_get_witness :
  let self := mkKeyTransform 0%nat (Some (λ k : string, Ok ("/ns" +:+ k))) in
  ∃ w1 w2,
    KeyTransformDatastore_put (DS := DictStore) self "/a" (Some 7%nat)
      empty_world = (Ok tt, w1)
    ∧ KeyTransformDatastore_get (DS := DictStore) self "/a" w1
      = (Ok (Some 7%nat), w2)
    ∧ calls w2 = [EPut 0%nat "/ns/a" (Some 7%nat); EGet 0%nat "/ns/a"].
Proof.
  intros self.
  apply (KeyTransformDatastore_put_get (DS := DictStore) flat_view
           (LawfulDatastore0 := DictLawful) self "/a" "/a" "/ns/a" 7%nat
           empty_world); reflexivity.
Defined.

Lemma LowercaseKeyDatastore_ignores_case_witness :
  ∃ w1 w2,
    KeyTransformDatastore_put (DS := DictStore)
      (LowercaseKeyDatastore_init flat_str flat_key 0%nat) "/hello"
      (Some 7%nat) empty_world = (Ok tt, w1)
    ∧ KeyTransformDatastore_get (DS := DictStore)
        (LowercaseKeyDatastore_init flat_str flat_key 0%nat) "/HeLlO" w1
      = (Ok (Some 7%nat), w2).
Proof.
  apply (LowercaseKeyDatastore_ignores_case flat_str (DS := DictStore)
           flat_key flat_view (LawfulDatastore0 := DictLawful)).
  vm_compute. reflexivity.
Defined.

Lemma TieredDatastore_put_get_witness :
  ∃ w1 w2,
    TieredDatastore_put (DS := DictStore) (mkTiered [0; 1]%nat) "/a"
      (Some 7%nat) empty_world = (Ok tt, w1)
    ∧ TieredDatastore_get (DS := DictStore) (mkTiered [0; 1]%nat) "/a" w1
      = (Ok (Some 7%nat), w2)
    ∧ calls w2 = calls w1 ++ [EGet 0%nat "/a"].
Proof.
  apply (proj1 (TieredDatastore_put_get (DS := DictStore) flat_view
                  (LawfulDatastore0 := DictLawful) (mkTiered [0; 1]%nat)
                  "/a" 7%nat empty_world) 0%nat [1%nat]).
  reflexivity.
Defined.

Lemma TieredDatastore_get_twice_witness :
  ∃ w1 w2 first,
    TieredDatastore_get (DS := DictStore) (mkTiered [0; 1; 2]%nat) "/a"
      third_tier_world = (Ok (Some 7%nat), w1)
    ∧ [0; 1; 2]%nat !! 0%nat = Some first
    ∧ TieredDatastore_get (DS := DictStore) (mkTiered [0; 1; 2]%nat) "/a" w1
      = (Ok (Some 7%nat), w2)
    ∧ calls w2 = calls w1 ++ [EGet first "/a"].
Proof.
  apply (TieredDatastore_get_twice (DS := DictStore) flat_view
           (LawfulDatastore0 := DictLawful) (mkTiered [0; 1; 2]%nat) "/a"
           third_tier_world 2%nat 2%nat 7%nat).
  - reflexivity.
  - vm_compute. reflexivity.
  - intros j l Hj Hl.
    destruct j as [|[|j]]; [| |lia]; injection Hl as <-; vm_compute; reflexivity.
Defined.

Lemma TieredDatastore_delete_get_witness :
  ∃ w1 w2,
    TieredDatastore_delete (DS := DictStore) (mkTiered [0; 1]%nat) "/a"
      some_world = (Ok tt, w1)
    ∧ calls w1 = [EDelete 0%nat "/a"; EDelete 1%nat "/a"]
    ∧ TieredDatastore_get (DS := DictStore) (mkTiered [0; 1]%nat) "/a" w1
      = (Ok None, w2).
Proof.
  destruct (TieredDatastore_delete_get (DS := DictStore) flat_view
              (LawfulDatastore0 := DictLawful) (LawfulDelete0 := DictDelete)
              (mkTiered [0; 1]%nat) "/a" some_world)
    as (w1 & w2 & Hdel & Hcalls & _ & Hget).
  exists w1, w2. split; [exact Hdel|]. split; [exact Hcalls|exact Hget].
Defined.

Lemma TieredDatastore_contains_first_hit_witness :
  (∃ w', TieredDatastore_contains (DS := DictStore) (mkTiered [0; 1; 2]%nat)
           "/b" third_tier_world = (Ok false, w')
     ∧ calls w' = [EContains 0%nat "/b"; EContains 1%nat "/b";
                   EContains 2%nat "/b"])
  ∧ (∃ w', TieredDatastore_contains (DS := DictStore)
             (mkTiered [2; 0; 1]%nat) "/a" third_tier_world = (Ok true, w')
       ∧ calls w' = [EContains 2%nat "/a"]).
Proof.
  split.
  - destruct (proj1 (TieredDatastore_contains_first_hit (DS := DictStore)
                       flat_view (LawfulContains0 := DictContains)
                       (mkTiered [0; 1; 2]%nat) "/b" third_tier_world))
      as (w' & Hc & Hcalls & _).
    + intros l Hl. simpl in Hl.
      repeat (apply elem_of_cons in Hl as [->|Hl]; [vm_compute; reflexivity|]).
      by apply elem_of_nil in Hl.
    + exists w'. split; [exact Hc|exact Hcalls].
  - destruct (proj2 (TieredDatastore_contains_first_hit (DS := DictStore)
                       flat_view (LawfulContains0 := DictContains)
                       (mkTiered [2; 0; 1]%nat) "/a" third_tier_world)
                0%nat 2%nat)
      as (w' & Hc & Hcalls & _).
    + reflexivity.
    + exists 7%nat. vm_compute. reflexivity.
    + intros; lia.
    + exists w'. split; [exact Hc|exact Hcalls].
Defined.

Lemma ShardedDatastore_put_get_witness :
  ∃ store w1 w2,
    ShardedDatastore_shardDatastore (mkSharded [0; 1; 2]%nat (λ _ : string, -1))
      "/a" = Ok store
    ∧ ShardedDatastore_put (DS := DictStore)
        (mkSharded [0; 1; 2]%nat (λ _ : string, -1)) "/a" (Some 7%nat)
        empty_world = (Ok tt, w1)
    ∧ ShardedDatastore_get (DS := DictStore)
        (mkSharded [0; 1; 2]%nat (λ _ : string, -1)) "/a" w1
      = (Ok (Some 7%nat), w2)
    ∧ calls w2 = calls empty_world
                 ++ [EPut store "/a" (Some 7%nat); EGet store "/a"].
Proof.
  apply (ShardedDatastore_put_get (DS := DictStore) flat_view
           (LawfulDatastore0 := DictLawful)).
  discriminate.
Defined.

Lemma ShardedDatastore_put_get_other_witness :
  (ShardedDatastore_get (DS := DictStore)
     (mkSharded [0; 1]%nat (λ k : string, Z.of_nat (String.length k))) "/a"
     (ShardedDatastore_put (DS := DictStore)
        (mkSharded [0; 1]%nat (λ k : string, Z.of_nat (String.length k)))
        "/bb" (Some 9%nat) some_world).2).1
  = (ShardedDatastore_get (DS := DictStore)
       (mkSharded [0; 1]%nat (λ k : string, Z.of_nat (String.length k))) "/a"
       some_world).1.
Proof.
  apply (ShardedDatastore_put_get_other (DS := DictStore) flat_view
           (LawfulDatastore0 := DictLawful)); discriminate.
Defined.

Lemma ShardedDatastore_delete_get_witness :
  ∃ store w1 w2,
    ShardedDatastore_shardDatastore (mkSharded [0; 1]%nat (λ _ : string, 3))
      "/a" = Ok store
    ∧ ShardedDatastore_delete (DS := DictStore)
        (mkSharded [0; 1]%nat (λ _ : string, 3)) "/a" some_world = (Ok tt, w1)
    ∧ ShardedDatastore_get (DS := DictStore)
        (mkSharded [0; 1]%nat (λ _ : string, 3)) "/a" w1 = (Ok None, w2)
    ∧ calls w2 = calls some_world ++ [EDelete store "/a"; EGet store "/a"].
Proof.
  apply (ShardedDatastore_delete_get (DS := DictStore) flat_view
           (LawfulDatastore0 := DictLawful) (LawfulDelete0 := DictDelete)).
  discriminate.
Defined.

Lemma TieredDatastore_query_last_witness :
  TieredDatastore_query (DS := DictStore) (mkTiered []) 0%nat some_world
  = (Raise IndexError, some_world)
  ∧ calls (TieredDatastore_query (DS := DictStore) (mkTiered [0; 1]%nat)
             0%nat some_world).2
    = [EQuery 1%nat (query_with None None)].
Proof.
  split.
  - apply (TieredDatastore_query_last (DS := DictStore) (mkTiered []) 0%nat
             some_world). reflexivity.
  - apply (proj2 (TieredDatastore_query_last (DS := DictStore)
                    (mkTiered [0; 1]%nat) 0%nat some_world) 1%nat).
    reflexivity.
Defined.

(** Two shards with one item each and a limit of 1: one item in all. *)
Lemma ShardedDatastore_query_within_limit_witness :
  let self := mkSharded [0; 1]%nat (λ _ : string, 0) in
  let w := dict_world (store_with "/a" 7) (query_with (Some 1) None) in
  let r := Generator_list (DS := DictStore)
             (ShardedDatastore_shard_query_generator self 0%nat) w in
  r.1 = Ok [7%nat] ∧ Z.of_nat (length [7%nat]) ≤ 1.
Proof.
  intros self w r.
  assert (Hr : r = (Ok [7%nat], r.2)) by (vm_compute; reflexivity).
  split; [by rewrite Hr|].
  apply (ShardedDatastore_query_within_limit (DS := DictStore)
           (counting := DictCounting) self 0%nat w r.2 1 [7%nat]).
  - reflexivity.
  - lia.
  - exact Hr.
Defined.

Lemma KeyTransformDatastore_contains_default_witness :
  let self := mkKeyTransform 0%nat (Some (λ k : string, Ok ("/" +:+ k))) in
  ∃ w1 w2,
    Datastore_contains (KeyTransformDatastore_get (DS := DictStore) self) "a"
      some_world = (Ok true, w1)
    ∧ KeyTransformDatastore_contains (DS := DictStore) self "a" some_world
      = (Ok true, w2).
Proof.
  intros self.
  destruct (KeyTransformDatastore_contains_default (DS := DictStore) flat_view
              (LawfulDatastore0 := DictLawful)
              (LawfulContains0 := DictContains) self "a" "/a" some_world)
    as (w1 & w2 & Hdefault & _ & Hown & _); [reflexivity|].
  exists w1, w2. split; [exact Hdefault|exact Hown].
Defined.

Lemma Generator_next_gives_list_witness :
  let self := mkSharded [0; 1]%nat (λ _ : string, 0) in
  let g := ShardedDatastore_shard_query_generator self 0%nat in
  ∃ g', (Generator_take (DS := DictStore) 3 g some_world).1
        = Ok ([7; 7]%nat, g').
Proof.
  intros self g.
  pose (r := Generator_list (DS := DictStore) g some_world).
  assert (Hr : r = (Ok [7; 7]%nat, r.2)) by (vm_compute; reflexivity).
  destruct (Generator_next_gives_list (DS := DictStore) g some_world r.2
              [7; 7]%nat Hr) as (g' & Htake).
  exists g'. exact (f_equal fst Htake).
Defined.

Lemma shard_query_generator_stops_at_limit_witness :
  let w := dict_world (store_with "/a" 7) (query_with (Some 1) None) in
  ∃ w', shard_loop_list (DS := DictStore) 0%nat [0; 1]%nat w
        = (Ok [7%nat], w')
    ∧ calls w' = [EQuery 0%nat (query_with (Some 1) None)]
    ∧ limit (queries w' 0%nat) = Some 0.
Proof.
  intros w.
  pose (r := call_query (DS := DictStore) 0%nat 0%nat w).
  assert (Hr : r = (Ok (mkCursor [7%nat] 0 1), r.2)) by (vm_compute; reflexivity).
  apply (shard_query_generator_stops_at_limit (DS := DictStore) 0%nat 0%nat
           [1%nat] w r.2 (mkCursor [7%nat] 0 1) 1 Hr).
  - reflexivity.
  - lia.
  - simpl. lia.
Defined.

Lemma shard_query_update_renormalizes_witness :
  let w := dict_world (store_with "/a" 7) (query_with (Some 3) None) in
  ∃ done w',
    shard_query_update (S := DictDatastore) 0%nat (mkCursor [7%nat] 2 1) w
    = (Ok done, w')
    ∧ offset (queries w' 0%nat) = 0 ∧ limit (queries w' 0%nat) = Some 2.
Proof.
  intros w.
  destruct (shard_query_update_renormalizes (S := DictDatastore) 0%nat
              (mkCursor [7%nat] 2 1) w) as (done & w' & Hupd & Hq & _).
  exists done, w'. split; [exact Hupd|]. by rewrite Hq.
Defined.
